(** * Traffic control at a four-way stop: a model of [tc.c]

    The program simulates cars crossing an intersection divided in four
    quadrants.  Each car is a thread that runs [ArriveIntersection],
    [CrossIntersection] and [ExitIntersection]; quadrants are locks shared
    by the cars of one direction; a per-direction mutex keeps cars of one
    approach in line; a fairness test makes a car yield to a car of another
    approach that finished its stop earlier.

    C [int] values are modelled as [Z], C [char] as [ascii], the [double]
    time stamps as exact rationals [Q] (only comparisons are made on them),
    the global arrays as lists. *)

From Stdlib Require Import ZArith QArith List Sorted Ascii String Bool Lia.
From stdpp Require Import base list.
Import ListNotations.

Local Open Scope Z_scope.

(** ** Constants of the program *)

Definition STOP_TIME : Z := 2000000.
Definition DELTA_L : Z := 5000000.
Definition DELTA_S : Z := 4000000.
Definition DELTA_R : Z := 3000000.

Definition DIR_N : Z := 0.
Definition DIR_S : Z := 1.
Definition DIR_E : Z := 2.
Definition DIR_W : Z := 3.

Definition Q_NW : Z := 0.
Definition Q_NE : Z := 1.
Definition Q_SW : Z := 2.
Definition Q_SE : Z := 3.
Definition NUM_QUADS : Z := 4.
Definition NUM_CARS : Z := 8.

(** A C [int] is 32 bits wide; [int_wrap] brings the mathematical result of
    an [int] operation back into range, as the two's-complement machine
    does.  (C leaves signed overflow undefined; the properties below say
    where none occurs.) *)
Definition INT_MAX : Z := 2147483647.
Definition INT_MIN : Z := -2147483648.
Definition int_wrap (z : Z) : Z := (z - INT_MIN) mod 4294967296 + INT_MIN.

(** ** Directions, turns and quadrant masks *)

Definition ch_up : ascii := "^".
Definition ch_down : ascii := "v".
Definition ch_right : ascii := ">".
Definition ch_left : ascii := "<".

(** [dir_to_index]: the [switch] falls through to [return -1]. *)
Definition dir_to_index (d : ascii) : Z :=
  if Ascii.eqb d ch_up then DIR_N
  else if Ascii.eqb d ch_down then DIR_S
  else if Ascii.eqb d ch_right then DIR_E
  else if Ascii.eqb d ch_left then DIR_W
  else -1.

(** [get_turn_type]: 0 = straight, 1 = left, 2 = right. *)
Definition get_turn_type (orig target : ascii) : Z :=
  if Ascii.eqb orig target then 0
  else if (Ascii.eqb orig ch_up && Ascii.eqb target ch_left)
       || (Ascii.eqb orig ch_down && Ascii.eqb target ch_right)
       || (Ascii.eqb orig ch_right && Ascii.eqb target ch_up)
       || (Ascii.eqb orig ch_left && Ascii.eqb target ch_down)
  then 1
  else 2.

Definition get_crossing_time (turn : Z) : Z :=
  if turn =? 1 then DELTA_L
  else if turn =? 0 then DELTA_S
  else DELTA_R.

(** [1<<q] *)
Definition bit (q : Z) : Z := Z.shiftl 1 q.

Definition get_quadrant_mask (orig target : ascii) : Z :=
  let turn := get_turn_type orig target in
  if Ascii.eqb orig ch_up then
    if turn =? 2 then bit Q_SW
    else if turn =? 0 then Z.lor (bit Q_SW) (bit Q_NW)
    else Z.lor (Z.lor (bit Q_SW) (bit Q_NW)) (bit Q_NE)
  else if Ascii.eqb orig ch_down then
    if turn =? 2 then bit Q_NE
    else if turn =? 0 then Z.lor (bit Q_NE) (bit Q_SE)
    else Z.lor (Z.lor (bit Q_NE) (bit Q_SE)) (bit Q_SW)
  else if Ascii.eqb orig ch_right then
    if turn =? 2 then bit Q_NW
    else if turn =? 0 then Z.lor (bit Q_NW) (bit Q_NE)
    else Z.lor (Z.lor (bit Q_NW) (bit Q_NE)) (bit Q_SE)
  else if Ascii.eqb orig ch_left then
    if turn =? 2 then bit Q_SE
    else if turn =? 0 then Z.lor (bit Q_SE) (bit Q_SW)
    else Z.lor (Z.lor (bit Q_SE) (bit Q_SW)) (bit Q_NW)
  else 0.

(** The test [mask & (1<<q)] of the two loops of [CrossIntersection]. *)
Definition in_mask (mask q : Z) : bool := negb (Z.land mask (bit q) =? 0).

(** Quadrant indices in the order [q = 0; q < NUM_QUADS; q++]. *)
Definition quad_indices : list Z := [0; 1; 2; 3].

(** The quadrants a mask selects, in ascending index order. *)
Definition mask_quads (mask : Z) : list Z :=
  List.filter (in_mask mask) quad_indices.

(** A direction symbol is valid when it belongs to the four-symbol alphabet. *)
Definition valid_dir (d : ascii) : Prop :=
  d = ch_up \/ d = ch_down \/ d = ch_right \/ d = ch_left.

(** The four left turns of the table of [get_turn_type]. *)
Definition left_pair (orig target : ascii) : Prop :=
  (orig = ch_up /\ target = ch_left) \/
  (orig = ch_down /\ target = ch_right) \/
  (orig = ch_right /\ target = ch_up) \/
  (orig = ch_left /\ target = ch_down).

(** ** Cars *)

Record directions := { dir_original : ascii; dir_target : ascii }.

Record car_info := {
  cid : Z;
  arrival_time : Q;
  dir : directions;
  stop_complete_time : Q;
  at_front : Z;
  waiting : Z;
  crossing : Z;
  done : Z
}.

(** The compound literal [(car_info){id, t, {o, g}, 0,0,0,0,0}] with which
    [init_cars] builds one entry of the table. *)
Definition new_car (id : Z) (t : Q) (o g : ascii) : car_info :=
  {| cid := id; arrival_time := t;
     dir := {| dir_original := o; dir_target := g |};
     stop_complete_time := 0%Q;
     at_front := 0; waiting := 0; crossing := 0; done := 0 |}.

(** [init_cars]: the eight hard-coded cars. *)
Definition init_cars : list car_info :=
  [ new_car 1 (11 # 10) ch_up ch_up;
    new_car 2 (22 # 10) ch_up ch_up;
    new_car 3 (33 # 10) ch_up ch_left;
    new_car 4 (44 # 10) ch_down ch_down;
    new_car 5 (55 # 10) ch_down ch_right;
    new_car 6 (66 # 10) ch_up ch_up;
    new_car 7 (77 # 10) ch_right ch_up;
    new_car 8 (88 # 10) ch_left ch_up ].

(** Field updates [car->field = v]. *)
Definition set_stop_complete_time (t : Q) (c : car_info) : car_info :=
  {| cid := cid c; arrival_time := arrival_time c; dir := dir c;
     stop_complete_time := t;
     at_front := at_front c; waiting := waiting c;
     crossing := crossing c; done := done c |}.

Definition set_at_front (v : Z) (c : car_info) : car_info :=
  {| cid := cid c; arrival_time := arrival_time c; dir := dir c;
     stop_complete_time := stop_complete_time c;
     at_front := v; waiting := waiting c;
     crossing := crossing c; done := done c |}.

Definition set_waiting (v : Z) (c : car_info) : car_info :=
  {| cid := cid c; arrival_time := arrival_time c; dir := dir c;
     stop_complete_time := stop_complete_time c;
     at_front := at_front c; waiting := v;
     crossing := crossing c; done := done c |}.

Definition set_crossing (v : Z) (c : car_info) : car_info :=
  {| cid := cid c; arrival_time := arrival_time c; dir := dir c;
     stop_complete_time := stop_complete_time c;
     at_front := at_front c; waiting := waiting c;
     crossing := v; done := done c |}.

Definition set_done (v : Z) (c : car_info) : car_info :=
  {| cid := cid c; arrival_time := arrival_time c; dir := dir c;
     stop_complete_time := stop_complete_time c;
     at_front := at_front c; waiting := waiting c;
     crossing := crossing c; done := v |}.

(** ** The fairness test *)

(** C truth value of an [int]. *)
Definition truthy (v : Z) : bool := negb (v =? 0).

(** [x < y] on time stamps. *)
Definition Qlt_bool (x y : Q) : bool := negb (Qle_bool y x).

(** The condition of the [if] that makes [earlier_car_waiting] return 1. *)
Definition stuck_before (my_stop : Q) (c : car_info) : bool :=
  Qlt_bool 0 (stop_complete_time c)
  && Qlt_bool (stop_complete_time c) my_stop
  && truthy (at_front c) && truthy (waiting c) && negb (truthy (crossing c)).

(** The body of the [for] loop over the table [cars], entry after entry:
    the three [continue] tests, then the [return 1]. *)
Fixpoint earlier_loop (my_cid : Z) (my_stop : Q) (my_dir : Z)
    (cars : list car_info) : Z :=
  match cars with
  | [] => 0
  | c :: rest =>
      if cid c =? my_cid then earlier_loop my_cid my_stop my_dir rest
      else if truthy (done c) then earlier_loop my_cid my_stop my_dir rest
      else
        let odir := dir_to_index (dir_original (dir c)) in
        if odir =? my_dir then earlier_loop my_cid my_stop my_dir rest
        else if stuck_before my_stop c then 1
        else earlier_loop my_cid my_stop my_dir rest
  end.

(** [earlier_car_waiting(car)], reading the global table [cars]. *)
Definition earlier_car_waiting (cars : list car_info) (car : car_info) : Z :=
  let my_stop := stop_complete_time car in
  let my_dir := dir_to_index (dir_original (dir car)) in
  earlier_loop (cid car) my_stop my_dir cars.

(** The waiter of the fairness rule: [b] is another car than [a], not done,
    from another origin, whose stop time is set and earlier than that of
    [a], and which is at the front of its line, waiting and not crossing. *)
Definition earlier_waiter (a b : car_info) : Prop :=
  cid b <> cid a /\
  done b = 0 /\
  dir_original (dir b) <> dir_original (dir a) /\
  ~ (stop_complete_time b == 0)%Q /\
  (stop_complete_time b < stop_complete_time a)%Q /\
  at_front b <> 0 /\
  waiting b <> 0 /\
  crossing b = 0.

(** ** Quadrant locks *)

Record quadrant_t := { owner_dir : Z; count : Z }.

(** What a call that may block does in a given state. *)
Inductive outcome (A : Type) : Type :=
| Proceeds (a : A)   (* the call returns, leaving the state [a] *)
| Waits              (* the caller stays in [pthread_cond_wait] *)
| Faults.            (* index outside the array *)
Arguments Proceeds {A} a.
Arguments Waits {A}.
Arguments Faults {A}.

(** The condition of the [while] of [acquire_quad]. *)
Definition must_wait (qd : quadrant_t) (d : Z) : bool :=
  negb (owner_dir qd =? -1) && negb (owner_dir qd =? d).

(** The two assignments that follow the wait loop. *)
Definition take_quad (qd : quadrant_t) (d : Z) : quadrant_t :=
  {| owner_dir := d; count := int_wrap (count qd + 1) |}.

(** The body of [release_quad]. *)
Definition drop_quad (qd : quadrant_t) : quadrant_t :=
  let c := int_wrap (count qd - 1) in
  {| owner_dir := if c =? 0 then -1 else owner_dir qd; count := c |}.

(** [quads[q]] *)
Definition quad_at (quads : list quadrant_t) (q : Z) : option quadrant_t :=
  if q <? 0 then None else quads !! Z.to_nat q.

Definition acquire_quad (quads : list quadrant_t) (q d : Z)
    : outcome (list quadrant_t) :=
  match quad_at quads q with
  | None => Faults
  | Some qd =>
      if must_wait qd d then Waits
      else Proceeds (<[Z.to_nat q := take_quad qd d]> quads)
  end.

Definition release_quad (quads : list quadrant_t) (q : Z)
    : option (list quadrant_t) :=
  match quad_at quads q with
  | None => None
  | Some qd => Some (<[Z.to_nat q := drop_quad qd]> quads)
  end.

(** [init_system] leaves every quadrant free. *)
Definition free_quad : quadrant_t := {| owner_dir := -1; count := 0 |}.
Definition init_quads : list quadrant_t := replicate (Z.to_nat NUM_QUADS) free_quad.

(** *** The quadrants together with the cars that hold them

    [holders] is the bookkeeping of the proof: which car thread, with which
    direction, is between its [acquire_quad] and its [release_quad] of which
    quadrant.  A car thread is named by its index in [cars]. *)

Record holder := { h_quad : Z; h_car : Z; h_dir : Z }.

Record isect := { quads : list quadrant_t; holders : list holder }.

Definition init_isect : isect := {| quads := init_quads; holders := [] |}.

Definition same_slot (q c : Z) (h : holder) : bool :=
  (h_quad h =? q) && (h_car h =? c).

Definition holds (s : isect) (q c : Z) : bool :=
  existsb (same_slot q c) (holders s).

Definition holders_of (q : Z) (hs : list holder) : list holder :=
  List.filter (fun h => h_quad h =? q) hs.

(** One step of the quadrant locks: a car that does not hold quadrant [q]
    gets through [acquire_quad], or a car that holds it calls
    [release_quad].  The callers are the [NUM_CARS] car threads, and
    [CrossIntersection] acquires a quadrant once before it releases it: a
    car is never twice among the holders of one quadrant. *)
Inductive step : isect -> isect -> Prop :=
| step_acquire s q c d quads' :
    0 <= c < NUM_CARS ->
    0 <= d <= 3 ->
    holds s q c = false ->
    acquire_quad (quads s) q d = Proceeds quads' ->
    step s {| quads := quads';
              holders := {| h_quad := q; h_car := c; h_dir := d |} :: holders s |}
| step_release s h quads' :
    In h (holders s) ->
    release_quad (quads s) (h_quad h) = Some quads' ->
    step s {| quads := quads';
              holders := List.filter (fun h' => negb (same_slot (h_quad h) (h_car h) h'))
                                     (holders s) |}.

Inductive reachable : isect -> Prop :=
| reach_init : reachable init_isect
| reach_step s s' : reachable s -> step s s' -> reachable s'.

(** The invariant of one quadrant with respect to its holders. *)
Definition quad_inv (qd : quadrant_t) (hs : list holder) : Prop :=
  (count qd > 0 -> owner_dir qd <> -1) /\
  (count qd = 0 -> owner_dir qd = -1) /\
  (forall h, In h hs -> h_dir h = owner_dir qd).

(** The slot a holder occupies: the quadrant and the car. *)
Definition slot (h : holder) : Z * Z := (h_quad h, h_car h).

(** What every reachable state satisfies: the array keeps its four entries,
    no car holds a quadrant twice, holders are cars of the table with a
    direction index, and each quadrant counts its holders and satisfies
    [quad_inv]. *)
Definition isect_inv (s : isect) : Prop :=
  length (quads s) = Z.to_nat NUM_QUADS /\
  List.NoDup (map slot (holders s)) /\
  (forall h, In h (holders s) -> 0 <= h_car h < NUM_CARS /\ 0 <= h_dir h <= 3) /\
  (forall q qd, quad_at (quads s) q = Some qd ->
     count qd = Z.of_nat (length (holders_of q (holders s))) /\
     quad_inv qd (holders_of q (holders s))).

(** ** The car thread

    What one car thread does, in program order, as the list of its calls
    to the synchronisation primitives, to the clock and to the log, and of
    its writes to its own entry of [cars]. *)

Inductive event : Type :=
| Print (id : Z) (orig target : ascii) (what : string)
| Usleep (usec : Z)
| SpinFor (usec : Z)
| LockState
| UnlockState
| BroadcastState
| WaitState                   (* [pthread_cond_wait(&state_cond, &state_lock)] *)
| LockDir (d : Z)             (* [pthread_mutex_lock(&dir_lock[d])] *)
| UnlockDir (d : Z)
| SetStopComplete (t : Q)
| SetAtFront (v : Z)
| SetWaiting (v : Z)
| SetCrossing (v : Z)
| SetDone (v : Z)
| EarlierCarWaiting (r : Z)   (* the call and the value it returned *)
| AcquireQuad (q d : Z)
| ReleaseQuad (q : Z).

(** What the thread does not decide itself: how often it polls the clock
    before its arrival time, what the clock reads when its stop is over,
    and how many times the fairness test sends it back to wait. *)
Record schedule := {
  arrival_polls : nat;
  stop_clock : Q;
  blocked_rounds : nat
}.

(** The [while (1)] of [ArriveIntersection]: [n] rounds in which
    [earlier_car_waiting] returns 1, then the round in which it returns 0
    and the loop is left. *)
Fixpoint fairness_wait (n : nat) : list event :=
  match n with
  | O => [LockState; EarlierCarWaiting 0; UnlockState]
  | S n' =>
      [LockState; EarlierCarWaiting 1; WaitState; UnlockState]
      ++ fairness_wait n'
  end.

Definition ArriveIntersection (car : car_info) (sch : schedule) : list event :=
  let d := dir_to_index (dir_original (dir car)) in
  [ Print (cid car) (dir_original (dir car)) (dir_target (dir car)) "arriving";
    SpinFor STOP_TIME;
    LockState; SetStopComplete (stop_clock sch); UnlockState;
    LockDir d;
    LockState; SetAtFront 1; SetWaiting 1; BroadcastState; UnlockState ]
  ++ fairness_wait (blocked_rounds sch).

(** [for (q = 0; q < NUM_QUADS; q++) if (mask & (1<<q)) acquire_quad(q, dir);] *)
Definition acquire_all (mask d : Z) : list event :=
  flat_map (fun q => if in_mask mask q then [AcquireQuad q d] else [])
           quad_indices.

(** [for (q = NUM_QUADS - 1; q >= 0; q--) if (mask & (1<<q)) release_quad(q);] *)
Definition release_all (mask : Z) : list event :=
  flat_map (fun q => if in_mask mask q then [ReleaseQuad q] else [])
           (rev quad_indices).

Definition CrossIntersection (car : car_info) : list event :=
  let d := dir_to_index (dir_original (dir car)) in
  let turn := get_turn_type (dir_original (dir car)) (dir_target (dir car)) in
  let cross_time := get_crossing_time turn in
  let mask := get_quadrant_mask (dir_original (dir car)) (dir_target (dir car)) in
  acquire_all mask d
  ++ [ LockState; SetWaiting 0; SetCrossing 1; BroadcastState; UnlockState;
       UnlockDir d;
       Print (cid car) (dir_original (dir car)) (dir_target (dir car)) "crossing";
       SpinFor cross_time;
       LockState; SetCrossing 0; UnlockState ]
  ++ release_all mask.

Definition ExitIntersection (car : car_info) : list event :=
  [ Print (cid car) (dir_original (dir car)) (dir_target (dir car)) "exiting";
    LockState; SetDone 1; SetAtFront 0; BroadcastState; UnlockState ].

Definition car_thread (car : car_info) (sch : schedule) : list event :=
  repeat (Usleep 1000) (arrival_polls sch)
  ++ ArriveIntersection car sch
  ++ CrossIntersection car
  ++ ExitIntersection car.

(** The effect of an event on the thread's own entry of [cars]. *)
Definition apply_event (c : car_info) (e : event) : car_info :=
  match e with
  | SetStopComplete t => set_stop_complete_time t c
  | SetAtFront v => set_at_front v c
  | SetWaiting v => set_waiting v c
  | SetCrossing v => set_crossing v c
  | SetDone v => set_done v c
  | _ => c
  end.

Definition run_events (c : car_info) (es : list event) : car_info :=
  fold_left apply_event es c.

Definition is_gate_event (e : event) : bool :=
  match e with LockDir _ | UnlockDir _ => true | _ => false end.

Definition is_acquire (e : event) : bool :=
  match e with AcquireQuad _ _ => true | _ => false end.

Definition is_release (e : event) : bool :=
  match e with ReleaseQuad _ => true | _ => false end.

(** The arrays [dir_lock] and [quads] have four entries each: an event
    whose index is outside them reads or writes beyond the array. *)
Definition in_bounds (e : event) : bool :=
  match e with
  | LockDir d | UnlockDir d => (0 <=? d) && (d <? 4)
  | AcquireQuad q _ | ReleaseQuad q => (0 <=? q) && (q <? NUM_QUADS)
  | _ => true
  end.

(** A run of a thread is free of out-of-range accesses. *)
Definition runs_in_bounds (es : list event) : bool := forallb in_bounds es.

(** One of the car's two direction symbols is outside the alphabet. *)
Definition has_unknown_symbol (car : car_info) : bool :=
  (dir_to_index (dir_original (dir car)) =? -1)
  || (dir_to_index (dir_target (dir car)) =? -1).

(** ** Observations on tables and runs *)

(** A car that takes part in the fairness rule: not done, stop time set, at
    the front of its line, waiting and not crossing. *)
Definition contending (c : car_info) : bool :=
  negb (truthy (done c))
  && Qlt_bool 0 (stop_complete_time c)
  && truthy (at_front c) && truthy (waiting c) && negb (truthy (crossing c)).

(** The calls to [print_event]. *)
Definition is_print (e : event) : bool :=
  match e with Print _ _ _ _ => true | _ => false end.

(** Events that read or write the shared table [cars] or use [state_cond]:
    the code makes them between [pthread_mutex_lock(&state_lock)] and
    [pthread_mutex_unlock(&state_lock)]. *)
Definition needs_state_lock (e : event) : bool :=
  match e with
  | SetStopComplete _ | SetAtFront _ | SetWaiting _ | SetCrossing _
  | SetDone _ | BroadcastState | WaitState | EarlierCarWaiting _ => true
  | _ => false
  end.

(** Follows [state_lock] along a run: [held] tells whether the thread holds
    it.  The run is accepted when lock and unlock alternate, the events
    that need the lock happen with it, every other event (sleeping,
    printing, locking a gate or a quadrant) without it, and the lock is
    free at the end. *)
Fixpoint state_lock_ok (held : bool) (es : list event) : bool :=
  match es with
  | [] => negb held
  | LockState :: rest => negb held && state_lock_ok true rest
  | UnlockState :: rest => held && state_lock_ok false rest
  | e :: rest => Bool.eqb (needs_state_lock e) held && state_lock_ok held rest
  end.

(** The quadrant events of a run, executed on the array [quads] when no
    other thread runs in between. *)
Fixpoint run_quads (quads : list quadrant_t) (es : list event)
    : outcome (list quadrant_t) :=
  match es with
  | [] => Proceeds quads
  | AcquireQuad q d :: rest =>
      match acquire_quad quads q d with
      | Proceeds quads' => run_quads quads' rest
      | Waits => Waits
      | Faults => Faults
      end
  | ReleaseQuad q :: rest =>
      match release_quad quads q with
      | Some quads' => run_quads quads' rest
      | None => Faults
      end
  | _ :: rest => run_quads quads rest
  end.

(** A quadrant in a consistent state that direction [d] may enter. *)
Definition enterable (qd : quadrant_t) (d : Z) : Prop :=
  0 <= count qd < INT_MAX /\
  (count qd = 0 <-> owner_dir qd = -1) /\
  (owner_dir qd = -1 \/ owner_dir qd = d).

(** ** All the threads together

    [main] starts one thread per entry of [cars] and lets them run.  A
    thread is its entry of the table and what is left of its run; the
    threads share the table and the array [quads].  A step is one event of
    one thread.  [acquire_quad] is a step only in a state in which it does
    not wait, and [earlier_car_waiting] returns what the table says at that
    moment; the mutexes [state_lock], [dir_lock] and [print_lock] are not
    followed, so every other event may happen at any time: the runs of the
    program are among the runs described here. *)

Record thread := { t_car : car_info; t_todo : list event }.

Record world := { w_threads : list thread; w_quads : list quadrant_t }.

Definition start_thread (cs : car_info * schedule) : thread :=
  {| t_car := fst cs; t_todo := car_thread (fst cs) (snd cs) |}.

(** The state in which [main] has created the threads, after
    [init_system]. *)
Definition init_world (cs : list (car_info * schedule)) : world :=
  {| w_threads := map start_thread cs; w_quads := init_quads |}.

(** The table [cars] as the threads see it. *)
Definition table (w : world) : list car_info := map t_car (w_threads w).

(** Whether the thread with entry [c] can do [e] now, and what [quads]
    becomes. *)
Definition event_effect (tbl : list car_info) (c : car_info)
    (quads : list quadrant_t) (e : event) : option (list quadrant_t) :=
  match e with
  | AcquireQuad q d =>
      match acquire_quad quads q d with
      | Proceeds quads' => Some quads'
      | _ => None
      end
  | ReleaseQuad q => release_quad quads q
  | EarlierCarWaiting r =>
      if r =? earlier_car_waiting tbl c then Some quads else None
  | _ => Some quads
  end.

Inductive wstep : world -> world -> Prop :=
| wstep_event w i c e rest quads' :
    w_threads w !! i = Some {| t_car := c; t_todo := e :: rest |} ->
    event_effect (table w) c (w_quads w) e = Some quads' ->
    wstep w {| w_threads := <[i := {| t_car := apply_event c e; t_todo := rest |}]>
                              (w_threads w);
               w_quads := quads' |}.

Inductive wreach (w0 : world) : world -> Prop :=
| wreach_start : wreach w0 w0
| wreach_step w w' : wreach w0 w -> wstep w w' -> wreach w0 w'.

(** The step of thread [i], when it has one. *)
Definition wstep_of (w : world) (i : nat) : option world :=
  match w_threads w !! i with
  | Some {| t_car := c; t_todo := e :: rest |} =>
      match event_effect (table w) c (w_quads w) e with
      | Some quads' =>
          Some {| w_threads := <[i := {| t_car := apply_event c e;
                                         t_todo := rest |}]> (w_threads w);
                  w_quads := quads' |}
      | None => None
      end
  | _ => None
  end.

(** The steps of the threads named by [order], one after the other. *)
Fixpoint run_order (w : world) (order : list nat) : option world :=
  match order with
  | [] => Some w
  | i :: order' =>
      match wstep_of w i with
      | Some w' => run_order w' order'
      | None => None
      end
  end.

(** *** What a thread holds along its run *)

Definition mem_quad (q : Z) (l : list Z) : bool := existsb (Z.eqb q) l.

(** The quadrants held after an event, from those held before. *)
Definition held_step (held : list Z) (e : event) : list Z :=
  match e with
  | AcquireQuad q _ => q :: held
  | ReleaseQuad q => List.filter (fun q' => negb (q' =? q)) held
  | _ => held
  end.

(** The quadrants held after the events [pre], none being held before. *)
Definition held_by (pre : list event) : list Z := fold_left held_step pre [].

(** The rule an event obeys, for a car of path [path] and direction index
    [d] that holds [held] and whose entry is [c]: quadrants are acquired on
    the path, with the car's direction, once, and not while [crossing] is
    set; they are released when held and [crossing] is not set; [crossing]
    is set only when the whole path is held. *)
Definition event_ok (path : list Z) (d : Z) (held : list Z) (c : car_info)
    (e : event) : bool :=
  match e with
  | AcquireQuad q d' =>
      (d' =? d) && mem_quad q path && negb (mem_quad q held)
      && negb (truthy (crossing c))
  | ReleaseQuad q => mem_quad q held && negb (truthy (crossing c))
  | SetCrossing v => negb (truthy v) || forallb (fun q => mem_quad q held) path
  | _ => true
  end.

Fixpoint path_ok (path : list Z) (d : Z) (held : list Z) (c : car_info)
    (es : list event) : bool :=
  match es with
  | [] => true
  | e :: rest =>
      event_ok path d held c e
      && path_ok path d (held_step held e) (apply_event c e) rest
  end.

(** *** The threads and the holders of the quadrants

    The bookkeeping that ties a world to a state of the quadrant locks:
    [pres] gives, per thread, the events it has done, and the holders are
    the quadrants held after these events. *)

Definition holds_rel (cs : list (car_info * schedule))
    (pres : list (list event)) (h : holder) : Prop :=
  exists i car sch pre,
    cs !! i = Some (car, sch) /\
    pres !! i = Some pre /\
    h_car h = Z.of_nat i /\
    h_dir h = dir_to_index (dir_original (dir car)) /\
    In (h_quad h) (held_by pre).

Definition world_inv (cs : list (car_info * schedule)) (w : world) : Prop :=
  exists pres hs,
    reachable {| quads := w_quads w; holders := hs |} /\
    length pres = length cs /\
    length (w_threads w) = length cs /\
    (forall i car sch pre t,
       cs !! i = Some (car, sch) -> pres !! i = Some pre ->
       w_threads w !! i = Some t ->
       car_thread car sch = pre ++ t_todo t /\ t_car t = run_events car pre) /\
    (forall h, In h hs <-> holds_rel cs pres h).

(** ** Sample data *)

(** A table of two cars: car 4, from the south, finished its stop at 6.4
    and waits at the front of its line; car 7, from the east, finished its
    stop at 9.7. *)
Definition sample_waiter : car_info :=
  set_waiting 1 (set_at_front 1
    (set_stop_complete_time (64 # 10) (new_car 4 (44 # 10) ch_down ch_down))).

Definition sample_car : car_info :=
  set_stop_complete_time (97 # 10) (new_car 7 (77 # 10) ch_right ch_up).

Definition sample_cars : list car_info := [sample_waiter; sample_car].

(** The quadrants after the cars of index 0 and 1, both from the north,
    entered the south-west quadrant. *)
Definition sample_isect_1 : isect :=
  {| quads := [free_quad; free_quad; {| owner_dir := DIR_N; count := 1 |}; free_quad];
     holders := [ {| h_quad := Q_SW; h_car := 0; h_dir := DIR_N |} ] |}.

Definition sample_isect_2 : isect :=
  {| quads := [free_quad; free_quad; {| owner_dir := DIR_N; count := 2 |}; free_quad];
     holders := [ {| h_quad := Q_SW; h_car := 1; h_dir := DIR_N |};
                  {| h_quad := Q_SW; h_car := 0; h_dir := DIR_N |} ] |}.

Definition sample_schedule : schedule :=
  {| arrival_polls := 0; stop_clock := 31 # 10; blocked_rounds := 0 |}.

(** A car built like those of [init_cars], but whose origin is not a
    direction symbol. *)
Definition stray_car : car_info := new_car 9 (99 # 10) "x" ch_up.

(** Two straight crossings, from the north and from the south, and a left
    turn from the north. *)
Definition sample_pair : list (car_info * schedule) :=
  [ (new_car 1 (11 # 10) ch_up ch_up, sample_schedule);
    (new_car 4 (44 # 10) ch_down ch_down, sample_schedule) ].

Definition sample_left_pair : list (car_info * schedule) :=
  [ (new_car 3 (33 # 10) ch_up ch_left, sample_schedule);
    (new_car 4 (44 # 10) ch_down ch_down, sample_schedule) ].

(* ================================================================== *)
(** * Properties *)

(** ** Direction symbols *)

Lemma valid_dir_cases (P : ascii -> Prop) :
  P ch_up -> P ch_down -> P ch_right -> P ch_left ->
  forall d, valid_dir d -> P d.
Proof.
  intros Hu Hd Hr Hl d [-> | [-> | [-> | ->]]]; assumption.
Qed.

Lemma valid_up : valid_dir ch_up.
Proof. unfold valid_dir. auto. Qed.

Lemma valid_down : valid_dir ch_down.
Proof. unfold valid_dir. auto. Qed.

Lemma valid_right : valid_dir ch_right.
Proof. unfold valid_dir. auto. Qed.

Lemma valid_left : valid_dir ch_left.
Proof. unfold valid_dir. auto 6. Qed.

Create HintDb dirs.
#[global] Hint Resolve valid_up valid_down valid_right valid_left : dirs.

Lemma dir_to_index_valid d : valid_dir d -> 0 <= dir_to_index d <= 3.
Proof.
  revert d. apply valid_dir_cases; vm_compute; split; discriminate.
Qed.

Lemma not_valid_eqb d :
  ~ valid_dir d ->
  Ascii.eqb d ch_up = false /\ Ascii.eqb d ch_down = false /\
  Ascii.eqb d ch_right = false /\ Ascii.eqb d ch_left = false.
Proof.
  intros H. unfold valid_dir in H.
  repeat split; apply Ascii.eqb_neq; intros ->; apply H; auto.
Qed.

Lemma dir_to_index_unknown d : ~ valid_dir d -> dir_to_index d = -1.
Proof.
  intros H. destruct (not_valid_eqb d H) as (Hu & Hd & Hr & Hl).
  unfold dir_to_index. rewrite Hu, Hd, Hr, Hl. reflexivity.
Qed.

Lemma dir_to_index_known d : dir_to_index d <> -1 -> valid_dir d.
Proof.
  unfold dir_to_index, valid_dir.
  destruct (Ascii.eqb_spec d ch_up); [auto |].
  destruct (Ascii.eqb_spec d ch_down); [auto |].
  destruct (Ascii.eqb_spec d ch_right); [auto |].
  destruct (Ascii.eqb_spec d ch_left); [auto |].
  intros H. exfalso. apply H. reflexivity.
Qed.

(** On the alphabet [dir_to_index] separates the symbols, and no symbol
    outside it shares the index of one inside. *)
Lemma dir_to_index_same a b :
  valid_dir a -> dir_to_index b = dir_to_index a -> b = a.
Proof.
  intros Ha Heq.
  assert (Hb : valid_dir b).
  { apply dir_to_index_known. rewrite Heq.
    pose proof (dir_to_index_valid a Ha). lia. }
  revert b Hb Heq. revert a Ha.
  apply (valid_dir_cases (fun a => forall b, valid_dir b -> _ -> b = a));
    apply (valid_dir_cases (fun b => _ -> b = _));
    vm_compute; intros H; try reflexivity; discriminate H.
Qed.

(** ** Turn kinds *)

(** C5.  For every pair of valid direction symbols, [get_turn_type] returns
    0 (straight) exactly when the two symbols are equal, 1 (left) exactly on
    the four pairs north-west, south-east, east-north and west-south, and 2
    (right) exactly on the remaining pairs of distinct symbols. *)
Theorem get_turn_type_table (orig target : ascii) :
  valid_dir orig -> valid_dir target ->
  (get_turn_type orig target = 0 <-> orig = target) /\
  (get_turn_type orig target = 1 <-> left_pair orig target) /\
  (get_turn_type orig target = 2 <->
     orig <> target /\ ~ left_pair orig target).
Proof.
  intros Ho Ht. revert target Ht. revert orig Ho.
  apply (valid_dir_cases (fun o => forall t, valid_dir t -> _));
    apply (valid_dir_cases (fun t => _));
    unfold left_pair; cbv;
    intuition (try discriminate; try congruence).
Qed.

Lemma get_turn_type_table_witness :
  valid_dir ch_up /\ valid_dir ch_left /\
  (get_turn_type ch_up ch_left = 1 <-> left_pair ch_up ch_left).
Proof.
  assert (Hu : valid_dir ch_up) by (unfold valid_dir; auto).
  assert (Hl : valid_dir ch_left) by (unfold valid_dir; auto 6).
  split; [exact Hu |]. split; [exact Hl |].
  exact (proj1 (proj2 (get_turn_type_table ch_up ch_left Hu Hl))).
Defined.

(** ** Crossing times *)

(** C9.  The crossing time of a left turn (5000000 microseconds) is larger
    than that of a straight crossing (4000000), which is larger than that
    of a right turn (3000000). *)
Theorem crossing_time_left_straight_right :
  get_crossing_time 1 = 5000000 /\
  get_crossing_time 0 = 4000000 /\
  get_crossing_time 2 = 3000000 /\
  get_crossing_time 1 > get_crossing_time 0 /\
  get_crossing_time 0 > get_crossing_time 2.
Proof.
  repeat split.
Qed.

(** ** Quadrant masks *)

Ltac split_ifs :=
  repeat match goal with
         | |- context [if ?b then _ else _] => destruct b
         end.

Lemma get_quadrant_mask_range orig target :
  0 <= get_quadrant_mask orig target < 16.
Proof.
  unfold get_quadrant_mask. split_ifs;
    vm_compute; (split; [discriminate | reflexivity]).
Qed.

Lemma mask_quads_indices mask q :
  In q (mask_quads mask) -> 0 <= q < NUM_QUADS.
Proof.
  unfold mask_quads. rewrite filter_In. intros [Hq _].
  unfold quad_indices, NUM_QUADS in *. simpl in Hq. lia.
Qed.

(** The quadrants the loops select are the bits set in the mask. *)
Lemma mask_quads_testbit mask q :
  0 <= mask < 16 -> 0 <= q ->
  (Z.testbit mask q = true <-> In q (mask_quads mask)).
Proof.
  intros Hm Hq.
  destruct (Z_lt_le_dec q 4) as [Hlt | Hge].
  - assert (Hc : q = 0 \/ q = 1 \/ q = 2 \/ q = 3) by lia.
    assert (Hd : mask = 0 \/ mask = 1 \/ mask = 2 \/ mask = 3 \/
                 mask = 4 \/ mask = 5 \/ mask = 6 \/ mask = 7 \/
                 mask = 8 \/ mask = 9 \/ mask = 10 \/ mask = 11 \/
                 mask = 12 \/ mask = 13 \/ mask = 14 \/ mask = 15) by lia.
    repeat (destruct Hd as [-> | Hd]); try subst mask;
      repeat (destruct Hc as [-> | Hc]); try subst q;
      vm_compute; intuition (try discriminate; try congruence).
  - split.
    + intros Hb. exfalso.
      destruct (Z.eq_dec mask 0) as [-> | Hnz].
      * rewrite Z.bits_0 in Hb. discriminate.
      * rewrite Z.bits_above_log2 in Hb; [discriminate | lia |].
        assert (Z.log2 mask < 4) by (apply Z.log2_lt_pow2; lia). lia.
    + intros Hin. apply mask_quads_indices in Hin. unfold NUM_QUADS in Hin. lia.
Qed.

(** C4.  [get_quadrant_mask] covers the twelve combinations of a valid
    origin and a turn kind: from every valid origin each of the three turn
    kinds is obtained with some valid target, and for every valid origin and
    target the mask selects a non-empty set of quadrants, all among the four
    quadrants of the intersection: one quadrant for a right turn, two for a
    straight crossing, three for a left turn. *)
Theorem get_quadrant_mask_sizes (orig : ascii) :
  valid_dir orig ->
  (forall turn, In turn [0; 1; 2] ->
     exists target, valid_dir target /\ get_turn_type orig target = turn) /\
  (forall target, valid_dir target ->
     let mask := get_quadrant_mask orig target in
     let turn := get_turn_type orig target in
     mask <> 0 /\
     mask_quads mask <> [] /\
     (forall q, 0 <= q -> Z.testbit mask q = true <-> In q (mask_quads mask)) /\
     (turn = 2 -> length (mask_quads mask) = 1%nat) /\
     (turn = 0 -> length (mask_quads mask) = 2%nat) /\
     (turn = 1 -> length (mask_quads mask) = 3%nat)).
Proof.
  intros Ho. split.
  - revert orig Ho.
    apply (valid_dir_cases (fun o => forall turn, In turn [0; 1; 2] -> _)).
    + intros turn [<- | [<- | [<- | []]]];
        [exists ch_up | exists ch_left | exists ch_down];
        (split; [auto with dirs | reflexivity]).
    + intros turn [<- | [<- | [<- | []]]];
        [exists ch_down | exists ch_right | exists ch_up];
        (split; [auto with dirs | reflexivity]).
    + intros turn [<- | [<- | [<- | []]]];
        [exists ch_right | exists ch_up | exists ch_down];
        (split; [auto with dirs | reflexivity]).
    + intros turn [<- | [<- | [<- | []]]];
        [exists ch_left | exists ch_down | exists ch_up];
        (split; [auto with dirs | reflexivity]).
  - intros target Ht mask turn.
    assert (Hbits : forall q, 0 <= q ->
              Z.testbit mask q = true <-> In q (mask_quads mask)).
    { intros q Hq. apply mask_quads_testbit; [apply get_quadrant_mask_range | exact Hq]. }
    split; [| split; [| split; [exact Hbits |]]]; clear Hbits;
      subst mask turn; revert target Ht; revert orig Ho;
      apply (valid_dir_cases (fun o => forall t, valid_dir t -> _));
      apply (valid_dir_cases (fun t => _));
      vm_compute; repeat split; intros H; try reflexivity; discriminate H.
Qed.

Lemma get_quadrant_mask_sizes_witness :
  valid_dir ch_right /\
  (get_turn_type ch_right ch_up = 1 ->
   length (mask_quads (get_quadrant_mask ch_right ch_up)) = 3%nat).
Proof.
  assert (Hr : valid_dir ch_right) by (unfold valid_dir; auto 6).
  assert (Hu : valid_dir ch_up) by (unfold valid_dir; auto).
  split; [exact Hr |].
  exact (proj2 (proj2 (proj2 (proj2 (proj2
           (proj2 (get_quadrant_mask_sizes ch_right Hr) ch_up Hu)))))).
Defined.

(** ** The fairness test *)

Lemma Qlt_bool_iff x y : Qlt_bool x y = true <-> (x < y)%Q.
Proof.
  unfold Qlt_bool. rewrite negb_true_iff.
  split.
  - intros H. apply Qnot_le_lt. intros Hle.
    apply Qle_bool_iff in Hle. congruence.
  - intros H. destruct (Qle_bool y x) eqn:E; [| reflexivity].
    apply Qle_bool_iff in E. exfalso. exact (Qlt_not_le _ _ H E).
Qed.

Lemma truthy_true v : truthy v = true <-> v <> 0.
Proof.
  unfold truthy. rewrite negb_true_iff, Z.eqb_neq. reflexivity.
Qed.

Lemma truthy_false v : truthy v = false <-> v = 0.
Proof.
  unfold truthy. rewrite negb_false_iff, Z.eqb_eq. reflexivity.
Qed.

Lemma stuck_before_iff my_stop c :
  stuck_before my_stop c = true <->
  (0 < stop_complete_time c)%Q /\ (stop_complete_time c < my_stop)%Q /\
  at_front c <> 0 /\ waiting c <> 0 /\ crossing c = 0.
Proof.
  unfold stuck_before.
  rewrite !andb_true_iff, !Qlt_bool_iff, !truthy_true,
          negb_true_iff, truthy_false.
  tauto.
Qed.

(** The loop returns 0 or 1, and 1 exactly when some entry passes the three
    [continue] tests and the final condition. *)
Lemma earlier_loop_one my_cid my_stop my_dir cars :
  earlier_loop my_cid my_stop my_dir cars = 1 <->
  exists c, In c cars /\
    cid c <> my_cid /\ done c = 0 /\
    dir_to_index (dir_original (dir c)) <> my_dir /\
    stuck_before my_stop c = true.
Proof.
  induction cars as [| c rest IH]; simpl.
  - split; [discriminate | intros (c & [] & _)].
  - destruct (Z.eqb_spec (cid c) my_cid) as [Hid | Hid].
    { rewrite IH. split.
      - intros (b & Hin & Hb). exists b. auto.
      - intros (b & [<- | Hin] & Hb); [tauto | exists b; auto]. }
    destruct (truthy (done c)) eqn:Hdone.
    { apply truthy_true in Hdone. rewrite IH. split.
      - intros (b & Hin & Hb). exists b. auto.
      - intros (b & [<- | Hin] & Hb); [tauto | exists b; auto]. }
    apply truthy_false in Hdone.
    destruct (Z.eqb_spec (dir_to_index (dir_original (dir c))) my_dir)
      as [Hdir | Hdir].
    { rewrite IH. split.
      - intros (b & Hin & Hb). exists b. auto.
      - intros (b & [<- | Hin] & Hb); [tauto | exists b; auto]. }
    destruct (stuck_before my_stop c) eqn:Hstuck.
    { split; [| reflexivity]. intros _. exists c. auto 6. }
    rewrite IH. split.
    + intros (b & Hin & Hb). exists b. auto.
    + intros (b & [<- | Hin] & Hb); [| exists b; auto].
      destruct Hb as (_ & _ & _ & Hb). congruence.
Qed.

Lemma earlier_loop_bool my_cid my_stop my_dir cars :
  earlier_loop my_cid my_stop my_dir cars = 0 \/
  earlier_loop my_cid my_stop my_dir cars = 1.
Proof.
  induction cars as [| c rest IH]; simpl; [auto |].
  split_ifs; auto.
Qed.

(** C1.  Let [a] be a car with a valid origin direction, and let the stop
    times of the table be either the initial 0 or readings of the
    simulation clock (so none is negative).  Then [earlier_car_waiting]
    returns 1 (and otherwise 0) exactly when the table holds another car
    that is not done, arrives from a different origin, has a stop time that
    is set (not 0) and strictly less than that of [a], is at the front of
    its line, is waiting and is not crossing. *)
Theorem earlier_car_waiting_iff (cars : list car_info) (a : car_info) :
  valid_dir (dir_original (dir a)) ->
  (forall b, In b cars -> (0 <= stop_complete_time b)%Q) ->
  (earlier_car_waiting cars a = 1 <-> exists b, In b cars /\ earlier_waiter a b)
  /\ (earlier_car_waiting cars a = 0 \/ earlier_car_waiting cars a = 1).
Proof.
  intros Hvalid Hnonneg. split; [| apply earlier_loop_bool].
  unfold earlier_car_waiting. rewrite earlier_loop_one.
  split.
  - intros (b & Hin & Hid & Hdone & Hdir & Hstuck).
    apply stuck_before_iff in Hstuck.
    destruct Hstuck as (Hpos & Hlt & Hf & Hw & Hc).
    exists b. split; [exact Hin |]. unfold earlier_waiter.
    repeat split; try assumption.
    + intros Heq. apply Hdir. rewrite Heq. reflexivity.
    + intros Hz. rewrite Hz in Hpos. exact (Qlt_irrefl _ Hpos).
  - intros (b & Hin & Hid & Hdone & Hdir & Hset & Hlt & Hf & Hw & Hc).
    exists b. repeat split; try assumption.
    + intros Heq. apply Hdir. apply dir_to_index_same; assumption.
    + apply stuck_before_iff. repeat split; try assumption.
      specialize (Hnonneg b Hin).
      apply Qle_lt_or_eq in Hnonneg. destruct Hnonneg as [Hpos | Hz];
        [exact Hpos |].
      exfalso. apply Hset. symmetry. exact Hz.
Qed.

Lemma earlier_car_waiting_iff_witness :
  valid_dir (dir_original (dir sample_car)) /\
  (forall b, In b sample_cars -> (0 <= stop_complete_time b)%Q) /\
  (earlier_car_waiting sample_cars sample_car = 1 <->
   exists b, In b sample_cars /\ earlier_waiter sample_car b).
Proof.
  assert (Hv : valid_dir (dir_original (dir sample_car)))
    by (unfold valid_dir; simpl; auto 6).
  assert (Hn : forall b, In b sample_cars -> (0 <= stop_complete_time b)%Q).
  { intros b [<- | [<- | []]]; vm_compute; discriminate. }
  split; [exact Hv |]. split; [exact Hn |].
  exact (proj1 (earlier_car_waiting_iff sample_cars sample_car Hv Hn)).
Defined.

(** ** Quadrant locks: one call *)

Lemma int_wrap_small z : INT_MIN <= z <= INT_MAX -> int_wrap z = z.
Proof.
  unfold int_wrap, INT_MIN, INT_MAX. intros H.
  rewrite Z.mod_small; lia.
Qed.

Lemma quad_at_Some quads q qd :
  quad_at quads q = Some qd -> 0 <= q /\ quads !! Z.to_nat q = Some qd.
Proof.
  unfold quad_at. destruct (Z.ltb_spec q 0); [discriminate |]. auto.
Qed.

Lemma quad_at_insert_eq (quads : list quadrant_t) q qd x :
  quad_at quads q = Some qd ->
  quad_at (<[Z.to_nat q := x]> quads) q = Some x.
Proof.
  intros H. apply quad_at_Some in H. destruct H as [Hq Hl].
  unfold quad_at. destruct (Z.ltb_spec q 0); [lia |].
  apply list_lookup_insert_eq. eapply lookup_lt_Some. exact Hl.
Qed.

Lemma quad_at_insert_ne (quads : list quadrant_t) q q' x :
  0 <= q -> q' <> q ->
  quad_at (<[Z.to_nat q := x]> quads) q' = quad_at quads q'.
Proof.
  intros Hq Hne. unfold quad_at.
  destruct (Z.ltb_spec q' 0); [reflexivity |].
  apply list_lookup_insert_ne. lia.
Qed.

Lemma must_wait_false qd d :
  must_wait qd d = false <-> owner_dir qd = -1 \/ owner_dir qd = d.
Proof.
  unfold must_wait.
  destruct (Z.eqb_spec (owner_dir qd) (-1)), (Z.eqb_spec (owner_dir qd) d);
    simpl; intuition congruence.
Qed.

(** C3.  On a quadrant [qd = quads[q]] whose count can still be
    incremented, [acquire_quad(q, d)] stays in its wait loop exactly when
    the owner is neither free (-1) nor [d]; when it proceeds the owner was
    free or [d], the quadrant is left with owner [d] and a count larger by
    one, and the other quadrants are untouched; a caller whose direction is
    the owner's, or who finds the quadrant free, always proceeds. *)
Theorem acquire_quad_effect (quads : list quadrant_t) (q d : Z) (qd : quadrant_t) :
  quad_at quads q = Some qd ->
  INT_MIN <= count qd < INT_MAX ->
  (acquire_quad quads q d = Waits <->
     owner_dir qd <> -1 /\ owner_dir qd <> d) /\
  (forall quads', acquire_quad quads q d = Proceeds quads' ->
     (owner_dir qd = -1 \/ owner_dir qd = d) /\
     quad_at quads' q = Some {| owner_dir := d; count := count qd + 1 |} /\
     (forall q', q' <> q -> quad_at quads' q' = quad_at quads q')) /\
  (owner_dir qd = -1 \/ owner_dir qd = d ->
     exists quads', acquire_quad quads q d = Proceeds quads').
Proof.
  intros Hat Hcount. unfold acquire_quad. rewrite Hat.
  destruct (must_wait qd d) eqn:Hw.
  - assert (Hno : ~ (owner_dir qd = -1 \/ owner_dir qd = d)).
    { intros H. apply must_wait_false in H. congruence. }
    split; [| split].
    + split; [intros _; split; intros H; apply Hno; auto | reflexivity].
    + intros quads' H. discriminate H.
    + intros H. contradiction.
  - apply must_wait_false in Hw.
    split; [| split].
    + split; [discriminate | intros [H1 H2]; destruct Hw; contradiction].
    + intros quads' H. injection H as <-.
      split; [exact Hw |]. split.
      * erewrite quad_at_insert_eq by exact Hat.
        unfold take_quad. rewrite int_wrap_small; [reflexivity |].
        unfold INT_MIN, INT_MAX in *. lia.
      * intros q' Hne. apply quad_at_insert_ne; [| exact Hne].
        apply quad_at_Some in Hat. tauto.
    + intros _. eexists. reflexivity.
Qed.

Lemma acquire_quad_effect_witness :
  quad_at [free_quad; {| owner_dir := DIR_S; count := 2 |}; free_quad; free_quad] Q_NE
    = Some {| owner_dir := DIR_S; count := 2 |} /\
  exists quads',
    acquire_quad [free_quad; {| owner_dir := DIR_S; count := 2 |}; free_quad; free_quad]
                 Q_NE DIR_S = Proceeds quads'.
Proof.
  split; [reflexivity |].
  refine (proj2 (proj2 (acquire_quad_effect
            [free_quad; {| owner_dir := DIR_S; count := 2 |}; free_quad; free_quad]
            Q_NE DIR_S {| owner_dir := DIR_S; count := 2 |} _ _)) _).
  - reflexivity.
  - unfold INT_MIN, INT_MAX. simpl. lia.
  - right. reflexivity.
Defined.

(** ** Quadrant locks: the invariant of the reachable states *)

Section Holders.

Implicit Types (hs : list holder) (h : holder) (q c : Z).

Lemma holders_of_In q hs h :
  In h (holders_of q hs) <-> In h hs /\ h_quad h = q.
Proof.
  unfold holders_of. rewrite filter_In, Z.eqb_eq. reflexivity.
Qed.

Lemma same_slot_true q c h : same_slot q c h = true <-> slot h = (q, c).
Proof.
  unfold same_slot, slot. rewrite andb_true_iff, !Z.eqb_eq.
  split; [intros [-> ->]; reflexivity | intros H; injection H; auto].
Qed.

Lemma holds_false q c hs :
  existsb (same_slot q c) hs = false -> ~ In (q, c) (map slot hs).
Proof.
  intros Hex Hin. apply in_map_iff in Hin. destruct Hin as (h & Hs & Hin).
  assert (Ht : existsb (same_slot q c) hs = true).
  { apply existsb_exists. exists h. split; [exact Hin |].
    apply same_slot_true. exact Hs. }
  congruence.
Qed.

Lemma NoDup_map_filter {A B : Type} (f : A -> B) (P : A -> bool) (l : list A) :
  List.NoDup (map f l) -> List.NoDup (map f (List.filter P l)).
Proof.
  induction l as [| x l IH]; simpl; intros H; [constructor |].
  apply NoDup_cons_iff in H. destruct H as [Hx Hl].
  destruct (P x); simpl; [| auto].
  constructor; [| auto].
  intros Hin. apply Hx. apply in_map_iff in Hin.
  destruct Hin as (y & Hy & Hin). apply filter_In in Hin.
  apply in_map_iff. exists y. tauto.
Qed.

(** The holders of one quadrant are distinct cars. *)
Lemma holders_of_cars_NoDup q hs :
  List.NoDup (map slot hs) -> List.NoDup (map h_car (holders_of q hs)).
Proof.
  induction hs as [| h hs IH]; simpl; intros H; [constructor |].
  apply NoDup_cons_iff in H. destruct H as [Hx Hl].
  destruct (Z.eqb_spec (h_quad h) q) as [Hq | Hq]; simpl; [| auto].
  constructor; [| auto].
  intros Hin. apply Hx. apply in_map_iff in Hin.
  destruct Hin as (h' & Hc & Hin). apply holders_of_In in Hin.
  apply in_map_iff. exists h'. split; [| tauto].
  unfold slot. destruct Hin as [_ Hq']. congruence.
Qed.

(** So a quadrant never has more holders than there are cars. *)
Lemma holders_of_bound q hs :
  List.NoDup (map slot hs) ->
  (forall h, In h hs -> 0 <= h_car h < NUM_CARS) ->
  Z.of_nat (length (holders_of q hs)) <= NUM_CARS.
Proof.
  intros Hnd Hcars.
  pose proof (holders_of_cars_NoDup q hs Hnd) as Hnd'.
  assert (Hincl : incl (map h_car (holders_of q hs)) [0; 1; 2; 3; 4; 5; 6; 7]).
  { intros c Hin. apply in_map_iff in Hin. destruct Hin as (h & <- & Hin).
    apply holders_of_In in Hin. destruct Hin as [Hin _].
    specialize (Hcars h Hin). unfold NUM_CARS in Hcars. simpl.
    assert (h_car h = 0 \/ h_car h = 1 \/ h_car h = 2 \/ h_car h = 3 \/
            h_car h = 4 \/ h_car h = 5 \/ h_car h = 6 \/ h_car h = 7) by lia.
    intuition auto. }
  pose proof (NoDup_incl_length Hnd' Hincl) as Hlen.
  rewrite length_map in Hlen. simpl in Hlen. unfold NUM_CARS. lia.
Qed.

(** Removing a slot leaves the holders of the other quadrants alone. *)
Lemma holders_of_remove_other q q' c hs :
  q' <> q ->
  holders_of q' (List.filter (fun h' => negb (same_slot q c h')) hs)
  = holders_of q' hs.
Proof.
  intros Hne. induction hs as [| h hs IH]; simpl; [reflexivity |].
  destruct (same_slot q c h) eqn:Hs; simpl.
  - apply same_slot_true in Hs. unfold slot in Hs. injection Hs as Hq _.
    destruct (Z.eqb_spec (h_quad h) q'); [congruence | exact IH].
  - destruct (h_quad h =? q'); [f_equal |]; exact IH.
Qed.

Lemma remove_absent q c hs :
  ~ In (q, c) (map slot hs) ->
  List.filter (fun h' => negb (same_slot q c h')) hs = hs.
Proof.
  induction hs as [| h hs IH]; simpl; intros H; [reflexivity |].
  destruct (same_slot q c h) eqn:Hs; simpl.
  - apply same_slot_true in Hs. exfalso. apply H. left. exact Hs.
  - f_equal. apply IH. intros Hin. apply H. right. exact Hin.
Qed.

(** Removing the slot of a holder takes exactly one holder away from its
    quadrant. *)
Lemma holders_of_remove_same h hs :
  List.NoDup (map slot hs) -> In h hs ->
  S (length (holders_of (h_quad h)
       (List.filter (fun h' => negb (same_slot (h_quad h) (h_car h) h')) hs)))
  = length (holders_of (h_quad h) hs).
Proof.
  induction hs as [| h0 hs IH]; simpl; intros Hnd Hin; [contradiction |].
  apply NoDup_cons_iff in Hnd. destruct Hnd as [Hx Hnd].
  destruct (same_slot (h_quad h) (h_car h) h0) eqn:Hs; simpl.
  - apply same_slot_true in Hs.
    rewrite remove_absent by (rewrite <- Hs; exact Hx).
    unfold slot in Hs. injection Hs as Hq _.
    rewrite (proj2 (Z.eqb_eq _ _) Hq). reflexivity.
  - destruct Hin as [-> | Hin].
    { exfalso. assert (same_slot (h_quad h) (h_car h) h = true)
        by (apply same_slot_true; reflexivity). congruence. }
    destruct (h_quad h0 =? h_quad h); simpl; rewrite IH by assumption;
      reflexivity.
Qed.

End Holders.

Lemma init_isect_inv : isect_inv init_isect.
Proof.
  unfold isect_inv, init_isect; simpl.
  split; [reflexivity |]. split; [constructor |].
  split; [intros h [] |].
  intros q qd Hat. apply quad_at_Some in Hat. destruct Hat as [Hq Hl].
  assert (Hqd : qd = free_quad).
  { unfold init_quads in Hl. apply lookup_replicate in Hl. tauto. }
  subst qd. unfold quad_inv; simpl. repeat split; try lia; try (intros h []).
Qed.

Lemma step_acquire_inv s q c d quads' :
  isect_inv s ->
  0 <= c < NUM_CARS -> 0 <= d <= 3 ->
  holds s q c = false ->
  acquire_quad (quads s) q d = Proceeds quads' ->
  isect_inv {| quads := quads';
               holders := {| h_quad := q; h_car := c; h_dir := d |} :: holders s |}.
Proof.
  intros (Hlen & Hnd & Hrange & Hquads) Hc Hd Hfree Hacq.
  unfold acquire_quad in Hacq.
  destruct (quad_at (quads s) q) as [qd |] eqn:Hat; [| discriminate].
  destruct (must_wait qd d) eqn:Hw; [discriminate |].
  injection Hacq as <-. apply must_wait_false in Hw.
  pose proof (quad_at_Some _ _ _ Hat) as [Hq0 _].
  destruct (Hquads q qd Hat) as (Hcount & Hpos & Hzero & Hdirs).
  pose proof (holders_of_bound q (holders s) Hnd
                (fun h Hin => proj1 (Hrange h Hin))) as Hbound.
  unfold isect_inv; simpl.
  split; [rewrite length_insert; exact Hlen |].
  split.
  { constructor; [| exact Hnd]. apply holds_false. exact Hfree. }
  split.
  { intros h [<- | Hin]; [simpl; auto | auto]. }
  intros q' qd' Hat'.
  destruct (Z.eq_dec q' q) as [-> | Hne].
  - rewrite (quad_at_insert_eq _ _ _ _ Hat) in Hat'. injection Hat' as <-.
    rewrite Z.eqb_refl. simpl length.
    unfold take_quad, quad_inv; simpl.
    rewrite int_wrap_small
      by (unfold INT_MIN, INT_MAX, NUM_CARS in *; lia).
    split; [lia |]. split; [lia |]. split; [lia |].
    intros h [<- | Hin]; [reflexivity |].
    rewrite (Hdirs h Hin).
    destruct Hw as [Hfreeq | Hown]; [| exact Hown].
    exfalso. destruct (holders_of q (holders s)) as [| h0 t]; [contradiction |].
    simpl in Hcount. apply Hpos; [lia | exact Hfreeq].
  - rewrite quad_at_insert_ne in Hat' by assumption.
    destruct (Z.eqb_spec q q'); [congruence |].
    apply Hquads. exact Hat'.
Qed.

Lemma step_release_inv s h quads' :
  isect_inv s ->
  In h (holders s) ->
  release_quad (quads s) (h_quad h) = Some quads' ->
  isect_inv {| quads := quads';
               holders := List.filter
                            (fun h' => negb (same_slot (h_quad h) (h_car h) h'))
                            (holders s) |}.
Proof.
  intros (Hlen & Hnd & Hrange & Hquads) Hin Hrel.
  unfold release_quad in Hrel.
  destruct (quad_at (quads s) (h_quad h)) as [qd |] eqn:Hat; [| discriminate].
  injection Hrel as <-.
  pose proof (quad_at_Some _ _ _ Hat) as [Hq0 _].
  destruct (Hquads _ qd Hat) as (Hcount & Hpos & Hzero & Hdirs).
  pose proof (holders_of_bound (h_quad h) (holders s) Hnd
                (fun h Hin => proj1 (Hrange h Hin))) as Hbound.
  pose proof (holders_of_remove_same h (holders s) Hnd Hin) as Hone.
  unfold isect_inv; simpl.
  split; [rewrite length_insert; exact Hlen |].
  split; [apply NoDup_map_filter; exact Hnd |].
  split.
  { intros h' Hin'. apply filter_In in Hin'. apply Hrange. tauto. }
  intros q' qd' Hat'.
  destruct (Z.eq_dec q' (h_quad h)) as [-> | Hne].
  - rewrite (quad_at_insert_eq _ _ _ _ Hat) in Hat'. injection Hat' as <-.
    unfold drop_quad, quad_inv; simpl.
    rewrite int_wrap_small
      by (unfold INT_MIN, INT_MAX, NUM_CARS in *; lia).
    split; [lia |].
    destruct (Z.eqb_spec (count qd - 1) 0) as [Hlast | Hmore].
    + split; [lia |]. split; [reflexivity |].
      intros h' Hin'. exfalso.
      destruct (holders_of (h_quad h) (List.filter _ (holders s)));
        [contradiction | simpl in Hone; lia].
    + split; [intros _; apply Hpos; lia |]. split; [lia |].
      intros h' Hin'. apply Hdirs.
      apply holders_of_In in Hin'. apply holders_of_In.
      destruct Hin' as [Hin' Hq']. apply filter_In in Hin'. tauto.
  - rewrite quad_at_insert_ne in Hat' by assumption.
    rewrite holders_of_remove_other by exact Hne.
    apply Hquads. exact Hat'.
Qed.

Lemma reachable_inv s : reachable s -> isect_inv s.
Proof.
  induction 1 as [| s s' Hreach IH Hstep].
  - apply init_isect_inv.
  - destruct Hstep.
    + apply step_acquire_inv; assumption.
    + apply step_release_inv; assumption.
Qed.

(** C2.  In every state reachable from the initial one (all quadrants free,
    count 0) by steps in which a car gets through [acquire_quad] with a
    valid direction or a holder calls [release_quad], every quadrant counts
    its current holders, a positive count comes with an owner that is not
    free (-1), a zero count with a free owner, and every current holder of
    the quadrant has the owner's direction. *)
Theorem quads_invariant (s : isect) (q : Z) :
  reachable s ->
  0 <= q < NUM_QUADS ->
  exists qd,
    quad_at (quads s) q = Some qd /\
    count qd = Z.of_nat (length (holders_of q (holders s))) /\
    (count qd > 0 -> owner_dir qd <> -1) /\
    (count qd = 0 -> owner_dir qd = -1) /\
    (forall h, In h (holders_of q (holders s)) -> h_dir h = owner_dir qd).
Proof.
  intros Hreach Hq. apply reachable_inv in Hreach.
  destruct Hreach as (Hlen & _ & _ & Hquads).
  destruct (lookup_lt_is_Some_2 (quads s) (Z.to_nat q)) as [qd Hqd].
  { rewrite Hlen. unfold NUM_QUADS in *. lia. }
  exists qd.
  assert (Hat : quad_at (quads s) q = Some qd).
  { unfold quad_at. destruct (Z.ltb_spec q 0); [lia | exact Hqd]. }
  split; [exact Hat |].
  destruct (Hquads q qd Hat) as (Hcount & Hinv). exact (conj Hcount Hinv).
Qed.

Lemma quads_invariant_witness :
  reachable sample_isect_2 /\
  0 <= Q_SW < NUM_QUADS /\
  exists qd,
    quad_at (quads sample_isect_2) Q_SW = Some qd /\
    count qd = Z.of_nat (length (holders_of Q_SW (holders sample_isect_2))) /\
    (count qd > 0 -> owner_dir qd <> -1) /\
    (count qd = 0 -> owner_dir qd = -1) /\
    (forall h, In h (holders_of Q_SW (holders sample_isect_2)) ->
       h_dir h = owner_dir qd).
Proof.
  assert (Hr : reachable sample_isect_2).
  { apply (reach_step sample_isect_1).
    - apply (reach_step init_isect); [apply reach_init |].
      apply (step_acquire init_isect Q_SW 0 DIR_N (quads sample_isect_1)).
      + unfold NUM_CARS. lia.
      + unfold DIR_N. lia.
      + reflexivity.
      + reflexivity.
    - apply (step_acquire sample_isect_1 Q_SW 1 DIR_N (quads sample_isect_2)).
      + unfold NUM_CARS. lia.
      + unfold DIR_N. lia.
      + reflexivity.
      + reflexivity. }
  assert (Hq : 0 <= Q_SW < NUM_QUADS) by (unfold Q_SW, NUM_QUADS; lia).
  split; [exact Hr |]. split; [exact Hq |].
  exact (quads_invariant sample_isect_2 Q_SW Hr Hq).
Defined.

(** ** The car thread: its loops *)

Lemma filter_none {A : Type} (P : A -> bool) (l : list A) :
  (forall x, In x l -> P x = false) -> List.filter P l = [].
Proof.
  induction l as [| x l IH]; simpl; intros H; [reflexivity |].
  rewrite (H x) by auto. apply IH. auto.
Qed.

Lemma fairness_wait_events n e :
  In e (fairness_wait n) ->
  e = LockState \/ e = UnlockState \/ e = WaitState \/
  exists r, e = EarlierCarWaiting r.
Proof.
  induction n as [| n IH]; simpl; intros H.
  - intuition eauto.
  - destruct H as [H | [H | [H | [H | H]]]]; eauto 6.
Qed.

Lemma polls_events n e : In e (repeat (Usleep 1000) n) -> e = Usleep 1000.
Proof. intros H. apply repeat_spec in H. exact H. Qed.

(** The two loops of [CrossIntersection] visit the quadrants of the mask,
    the first in ascending order, the second in the reverse order. *)
Lemma acquire_all_map mask d :
  acquire_all mask d = map (fun q => AcquireQuad q d) (mask_quads mask).
Proof.
  unfold acquire_all, mask_quads, quad_indices. simpl.
  destruct (in_mask mask 0), (in_mask mask 1), (in_mask mask 2),
           (in_mask mask 3); reflexivity.
Qed.

Lemma release_all_map mask :
  release_all mask = map ReleaseQuad (rev (mask_quads mask)).
Proof.
  unfold release_all, mask_quads, quad_indices. simpl.
  destruct (in_mask mask 0), (in_mask mask 1), (in_mask mask 2),
           (in_mask mask 3); reflexivity.
Qed.

Lemma mask_quads_ascending mask : StronglySorted Z.lt (mask_quads mask).
Proof.
  unfold mask_quads, quad_indices. simpl.
  destruct (in_mask mask 0), (in_mask mask 1), (in_mask mask 2),
           (in_mask mask 3); repeat constructor.
Qed.

Lemma mask_quads_descending mask : StronglySorted Z.gt (rev (mask_quads mask)).
Proof.
  unfold mask_quads, quad_indices. simpl.
  destruct (in_mask mask 0), (in_mask mask 1), (in_mask mask 2),
           (in_mask mask 3); repeat constructor.
Qed.

Lemma filter_map_all {A B : Type} (P : B -> bool) (f : A -> B) (l : list A) :
  (forall x, P (f x) = true) -> List.filter P (map f l) = map f l.
Proof.
  intros H. induction l as [| x l IH]; simpl; [reflexivity |].
  rewrite H, IH. reflexivity.
Qed.

Lemma filter_map_none {A B : Type} (P : B -> bool) (f : A -> B) (l : list A) :
  (forall x, P (f x) = false) -> List.filter P (map f l) = [].
Proof.
  intros H. induction l as [| x l IH]; simpl; [reflexivity |].
  rewrite H, IH. reflexivity.
Qed.

(** Events of a kind that the waiting loops do not contain. *)
Lemma filter_waits (P : event -> bool) n k :
  P (Usleep 1000) = false -> P LockState = false -> P UnlockState = false ->
  P WaitState = false -> (forall r, P (EarlierCarWaiting r) = false) ->
  List.filter P (repeat (Usleep 1000) n) = [] /\
  List.filter P (fairness_wait k) = [].
Proof.
  intros Hu Hl Hul Hw He. split; apply filter_none; intros e Hin.
  - apply polls_events in Hin. subst e. exact Hu.
  - apply fairness_wait_events in Hin.
    destruct Hin as [-> | [-> | [-> | [r ->]]]]; auto.
Qed.

(** The calls to [acquire_quad] and to [release_quad] of a whole thread. *)
Lemma car_thread_acquires car sch :
  List.filter is_acquire (car_thread car sch)
  = map (fun q => AcquireQuad q (dir_to_index (dir_original (dir car))))
        (mask_quads (get_quadrant_mask (dir_original (dir car))
                                       (dir_target (dir car)))).
Proof.
  unfold car_thread, ArriveIntersection, CrossIntersection, ExitIntersection.
  destruct (filter_waits is_acquire (arrival_polls sch) (blocked_rounds sch))
    as [Hp Hf]; try reflexivity.
  rewrite !List.filter_app, Hp, Hf. simpl.
  rewrite acquire_all_map, release_all_map.
  rewrite filter_map_all by reflexivity.
  rewrite filter_map_none by reflexivity.
  simpl. rewrite ?app_nil_r. reflexivity.
Qed.

Lemma car_thread_releases car sch :
  List.filter is_release (car_thread car sch)
  = map ReleaseQuad
        (rev (mask_quads (get_quadrant_mask (dir_original (dir car))
                                            (dir_target (dir car))))).
Proof.
  unfold car_thread, ArriveIntersection, CrossIntersection, ExitIntersection.
  destruct (filter_waits is_release (arrival_polls sch) (blocked_rounds sch))
    as [Hp Hf]; try reflexivity.
  rewrite !List.filter_app, Hp, Hf. simpl.
  rewrite acquire_all_map, release_all_map.
  rewrite filter_map_none by reflexivity.
  rewrite filter_map_all by reflexivity.
  simpl. rewrite ?app_nil_r. reflexivity.
Qed.

(** C7.  [CrossIntersection] first calls [acquire_quad] on the quadrants of
    the car's mask, one call per quadrant, in ascending index order; it ends
    with the calls to [release_quad] on the same quadrants in the reverse,
    strictly descending, order; between the two it neither acquires nor
    releases a quadrant.  The quadrants visited are exactly the bits set in
    [get_quadrant_mask].  This holds for every direction pair, in
    particular for the valid ones. *)
Theorem cross_acquires_ascending_releases_descending (car : car_info) :
  let d := dir_to_index (dir_original (dir car)) in
  let mask := get_quadrant_mask (dir_original (dir car)) (dir_target (dir car)) in
  (forall q, 0 <= q -> Z.testbit mask q = true <-> In q (mask_quads mask)) /\
  StronglySorted Z.lt (mask_quads mask) /\
  StronglySorted Z.gt (rev (mask_quads mask)) /\
  exists mid,
    CrossIntersection car
    = map (fun q => AcquireQuad q d) (mask_quads mask)
      ++ mid
      ++ map ReleaseQuad (rev (mask_quads mask)) /\
    List.filter is_acquire mid = [] /\
    List.filter is_release mid = [].
Proof.
  intros d mask.
  split.
  { intros q Hq. apply mask_quads_testbit;
      [apply get_quadrant_mask_range | exact Hq]. }
  split; [apply mask_quads_ascending |].
  split; [apply mask_quads_descending |].
  eexists. split.
  - unfold CrossIntersection. fold d. fold mask.
    rewrite acquire_all_map, release_all_map. reflexivity.
  - split; reflexivity.
Qed.

(** ** The car thread: its own entry of the table *)

Lemma run_events_app c es1 es2 :
  run_events c (es1 ++ es2) = run_events (run_events c es1) es2.
Proof. unfold run_events. apply fold_left_app. Qed.

Lemma run_events_inert c es :
  (forall e c', In e es -> apply_event c' e = c') -> run_events c es = c.
Proof.
  revert c. induction es as [| e es IH]; simpl; intros c H; [reflexivity |].
  unfold run_events in *. simpl. rewrite (H e c) by auto.
  apply IH. intros e' c' Hin. apply H. auto.
Qed.

Lemma run_events_polls c n : run_events c (repeat (Usleep 1000) n) = c.
Proof.
  apply run_events_inert. intros e c' Hin.
  apply polls_events in Hin. subst e. reflexivity.
Qed.

Lemma run_events_fairness_wait c n : run_events c (fairness_wait n) = c.
Proof.
  apply run_events_inert. intros e c' Hin.
  apply fairness_wait_events in Hin.
  destruct Hin as [-> | [-> | [-> | [r ->]]]]; reflexivity.
Qed.

Lemma run_events_acquire_all c mask d : run_events c (acquire_all mask d) = c.
Proof.
  apply run_events_inert. intros e c' Hin.
  rewrite acquire_all_map in Hin. apply in_map_iff in Hin.
  destruct Hin as (q & <- & _). reflexivity.
Qed.

(** C6.  The run of a car thread has exactly one [LockDir] and one
    [UnlockDir], both on the car's direction index, in this order.  Before
    the [LockDir] the thread has spun for [STOP_TIME] and then recorded its
    [stop_complete_time].  Before the [UnlockDir] it has made all its calls
    to [acquire_quad], one for every quadrant whose bit is set in
    [get_quadrant_mask] and no other, and has set [waiting] to 0 and
    [crossing] to 1; nothing after the [UnlockDir] acquires a quadrant. *)
Theorem dir_lock_held_from_stop_to_crossing (car : car_info) (sch : schedule) :
  let d := dir_to_index (dir_original (dir car)) in
  let mask := get_quadrant_mask (dir_original (dir car)) (dir_target (dir car)) in
  (forall q, 0 <= q -> Z.testbit mask q = true <-> In q (mask_quads mask)) /\
  exists pre mid post,
    car_thread car sch = pre ++ LockDir d :: mid ++ UnlockDir d :: post /\
    List.filter is_gate_event pre = [] /\
    List.filter is_gate_event mid = [] /\
    List.filter is_gate_event post = [] /\
    (exists p1 p2 p3,
       pre = p1 ++ SpinFor STOP_TIME :: p2
                ++ SetStopComplete (stop_clock sch) :: p3) /\
    stop_complete_time (run_events car pre) = stop_clock sch /\
    List.filter is_acquire mid = map (fun q => AcquireQuad q d) (mask_quads mask) /\
    (forall q, 0 <= q -> Z.testbit mask q = true -> In (AcquireQuad q d) mid) /\
    List.filter is_acquire pre = [] /\
    List.filter is_acquire post = [] /\
    waiting (run_events car (pre ++ LockDir d :: mid)) = 0 /\
    crossing (run_events car (pre ++ LockDir d :: mid)) = 1.
Proof.
  intros d mask.
  assert (Hbits : forall q, 0 <= q ->
            Z.testbit mask q = true <-> In q (mask_quads mask)).
  { intros q Hq. apply mask_quads_testbit;
      [apply get_quadrant_mask_range | exact Hq]. }
  split; [exact Hbits |].
  exists (repeat (Usleep 1000) (arrival_polls sch)
          ++ [ Print (cid car) (dir_original (dir car)) (dir_target (dir car))
                     "arriving";
               SpinFor STOP_TIME;
               LockState; SetStopComplete (stop_clock sch); UnlockState ]).
  exists ([ LockState; SetAtFront 1; SetWaiting 1; BroadcastState; UnlockState ]
          ++ fairness_wait (blocked_rounds sch)
          ++ acquire_all mask d
          ++ [ LockState; SetWaiting 0; SetCrossing 1; BroadcastState;
               UnlockState ]).
  exists ([ Print (cid car) (dir_original (dir car)) (dir_target (dir car))
                  "crossing";
            SpinFor (get_crossing_time
                       (get_turn_type (dir_original (dir car))
                                      (dir_target (dir car))));
            LockState; SetCrossing 0; UnlockState ]
          ++ release_all mask
          ++ ExitIntersection car).
  destruct (filter_waits is_gate_event (arrival_polls sch) (blocked_rounds sch))
    as [Hgp Hgf]; try reflexivity.
  destruct (filter_waits is_acquire (arrival_polls sch) (blocked_rounds sch))
    as [Hap Haf]; try reflexivity.
  split.
  { unfold car_thread, ArriveIntersection, CrossIntersection.
    fold d. fold mask. simpl.
    repeat (rewrite <- app_assoc; simpl). reflexivity. }
  split.
  { rewrite List.filter_app, Hgp. reflexivity. }
  split.
  { simpl. rewrite !List.filter_app, Hgf, acquire_all_map.
    rewrite filter_map_none by reflexivity. reflexivity. }
  split.
  { simpl. rewrite List.filter_app, release_all_map.
    rewrite filter_map_none by reflexivity. reflexivity. }
  split.
  { exists (repeat (Usleep 1000) (arrival_polls sch)
            ++ [ Print (cid car) (dir_original (dir car))
                       (dir_target (dir car)) "arriving" ]),
           [LockState], [UnlockState].
    rewrite <- app_assoc. reflexivity. }
  split.
  { rewrite run_events_app, run_events_polls. reflexivity. }
  split.
  { simpl. rewrite !List.filter_app, Haf, acquire_all_map.
    rewrite filter_map_all by reflexivity. simpl.
    rewrite app_nil_r. reflexivity. }
  split.
  { intros q Hq Hb. apply (Hbits q Hq) in Hb.
    apply in_or_app. right. apply in_or_app. right. apply in_or_app. left.
    rewrite acquire_all_map.
    apply (in_map (fun q => AcquireQuad q d)). exact Hb. }
  split.
  { rewrite List.filter_app, Hap. reflexivity. }
  split.
  { simpl. rewrite List.filter_app, release_all_map.
    rewrite filter_map_none by reflexivity. reflexivity. }
  assert (Hrun : run_events car
            ((repeat (Usleep 1000) (arrival_polls sch)
              ++ [ Print (cid car) (dir_original (dir car))
                         (dir_target (dir car)) "arriving";
                   SpinFor STOP_TIME;
                   LockState; SetStopComplete (stop_clock sch); UnlockState ])
             ++ LockDir d
                :: [ LockState; SetAtFront 1; SetWaiting 1; BroadcastState;
                     UnlockState ]
                ++ fairness_wait (blocked_rounds sch)
                ++ acquire_all mask d
                ++ [ LockState; SetWaiting 0; SetCrossing 1; BroadcastState;
                     UnlockState ])
          = set_crossing 1 (set_waiting 0 (set_waiting 1 (set_at_front 1
              (set_stop_complete_time (stop_clock sch) car))))).
  { rewrite run_events_app, run_events_app, run_events_polls.
    change (LockDir d :: ?l ++ ?r) with ((LockDir d :: l) ++ r).
    rewrite run_events_app, run_events_app, run_events_fairness_wait.
    rewrite run_events_app, run_events_acquire_all. reflexivity. }
  rewrite Hrun. split; reflexivity.
Qed.

(** ** Unknown direction symbols *)

Lemma get_quadrant_mask_unknown c target :
  ~ valid_dir c -> get_quadrant_mask c target = 0.
Proof.
  intros H. destruct (not_valid_eqb c H) as (Hu & Hd & Hr & Hl).
  unfold get_quadrant_mask. rewrite Hu, Hd, Hr, Hl. reflexivity.
Qed.

Lemma car_thread_locks_dir car sch :
  In (LockDir (dir_to_index (dir_original (dir car)))) (car_thread car sch) /\
  In (UnlockDir (dir_to_index (dir_original (dir car)))) (car_thread car sch).
Proof.
  unfold car_thread, ArriveIntersection, CrossIntersection.
  rewrite !in_app_iff. simpl. split.
  - right. left. left. tauto.
  - right. right. left. right. left. tauto.
Qed.

(** C10.  For a character [c] outside the alphabet, [dir_to_index] returns
    -1 and [get_quadrant_mask], with [c] as origin, returns the empty mask 0
    whatever the target.  Both are plain return values: the thread of a car
    with origin [c] carries on, locks and unlocks the direction gate at
    index -1, and makes no call to [acquire_quad] or [release_quad]. *)
Theorem unknown_origin_sentinels (c : ascii) :
  ~ valid_dir c ->
  dir_to_index c = -1 /\
  (forall target, get_quadrant_mask c target = 0) /\
  (forall car sch,
     dir_original (dir car) = c ->
     In (LockDir (-1)) (car_thread car sch) /\
     In (UnlockDir (-1)) (car_thread car sch) /\
     List.filter is_acquire (car_thread car sch) = [] /\
     List.filter is_release (car_thread car sch) = []).
Proof.
  intros H.
  split; [apply dir_to_index_unknown; exact H |].
  split; [intros target; apply get_quadrant_mask_unknown; exact H |].
  intros car sch Hc.
  pose proof (car_thread_locks_dir car sch) as [Hl Hu].
  rewrite Hc, (dir_to_index_unknown c H) in Hl, Hu.
  split; [exact Hl |]. split; [exact Hu |].
  rewrite car_thread_acquires, car_thread_releases, Hc.
  rewrite (get_quadrant_mask_unknown c _ H). split; reflexivity.
Qed.

Lemma unknown_origin_sentinels_witness :
  ~ valid_dir "x" /\
  dir_to_index "x" = -1 /\
  List.filter is_acquire (car_thread stray_car sample_schedule) = [].
Proof.
  assert (Hx : ~ valid_dir "x").
  { unfold valid_dir. intros [H | [H | [H | H]]]; discriminate H. }
  split; [exact Hx |].
  split; [exact (proj1 (unknown_origin_sentinels "x" Hx)) |].
  exact (proj1 (proj2 (proj2
           (proj2 (proj2 (unknown_origin_sentinels "x" Hx))
              stray_car sample_schedule eq_refl)))).
Defined.

(** *** Construction does not check the symbols *)

(** Every event of a thread stays inside the arrays, the two gate events
    set apart. *)
Lemma car_thread_in_bounds car sch e :
  In e (car_thread car sch) ->
  in_bounds e = true \/
  e = LockDir (dir_to_index (dir_original (dir car))) \/
  e = UnlockDir (dir_to_index (dir_original (dir car))).
Proof.
  unfold car_thread, ArriveIntersection, CrossIntersection, ExitIntersection.
  rewrite !in_app_iff, acquire_all_map, release_all_map, !in_map_iff.
  simpl. intros H.
  repeat match type of H with
         | _ \/ _ => destruct H as [H | H]
         end;
    try contradiction;
    try (subst e; auto; fail).
  - apply polls_events in H. subst e. auto.
  - apply fairness_wait_events in H.
    destruct H as [-> | [-> | [-> | [r ->]]]]; auto.
  - destruct H as (q & <- & Hq).
    apply mask_quads_indices in Hq. left. simpl.
    apply andb_true_iff. split; [apply Z.leb_le | apply Z.ltb_lt]; lia.
  - destruct H as (q & <- & Hq).
    apply in_rev in Hq. apply mask_quads_indices in Hq. left. simpl.
    apply andb_true_iff. split; [apply Z.leb_le | apply Z.ltb_lt]; lia.
Qed.

Lemma valid_origin_runs_in_bounds car sch :
  valid_dir (dir_original (dir car)) ->
  runs_in_bounds (car_thread car sch) = true.
Proof.
  intros Hv. apply dir_to_index_valid in Hv.
  unfold runs_in_bounds. apply forallb_forall. intros e Hin.
  apply car_thread_in_bounds in Hin.
  destruct Hin as [H | [-> | ->]]; [exact H | |]; simpl;
    apply andb_true_iff; (split; [apply Z.leb_le | apply Z.ltb_lt]); lia.
Qed.

Lemma new_car_recognized id t o g :
  valid_dir o -> valid_dir g ->
  valid_dir (dir_original (dir (new_car id t o g))) /\
  valid_dir (dir_target (dir (new_car id t o g))) /\
  has_unknown_symbol (new_car id t o g) = false /\
  forall sch, runs_in_bounds (car_thread (new_car id t o g) sch) = true.
Proof.
  intros Ho Hg. split; [exact Ho |]. split; [exact Hg |]. split.
  - unfold has_unknown_symbol. simpl.
    pose proof (dir_to_index_valid o Ho). pose proof (dir_to_index_valid g Hg).
    apply orb_false_iff. split; apply Z.eqb_neq; lia.
  - intros sch. apply valid_origin_runs_in_bounds. exact Ho.
Qed.

(** C8, as the program has it.  [init_cars] builds its eight cars from
    hard-coded direction pairs without any check; all sixteen symbols belong
    to the alphabet, so for these cars [dir_to_index] never returns -1 and
    every run of their threads indexes [dir_lock] and [quads] inside the
    arrays. *)
Theorem init_cars_symbols_recognized :
  length init_cars = Z.to_nat NUM_CARS /\
  Forall (fun car =>
            valid_dir (dir_original (dir car)) /\
            valid_dir (dir_target (dir car)) /\
            has_unknown_symbol car = false /\
            forall sch, runs_in_bounds (car_thread car sch) = true)
         init_cars.
Proof.
  split; [reflexivity |].
  unfold init_cars.
  repeat (apply List.Forall_cons;
          [apply new_car_recognized; auto with dirs |]).
  apply List.Forall_nil.
Qed.

(** C8, as the specification states it, fails: a direction pair with an
    unknown symbol is not rejected when the car is built ([new_car] returns
    a car for every pair), and the thread of such a car locks [dir_lock] at
    index -1, outside the array. *)
Lemma unknown_symbol_reaches_dir_lock :
  has_unknown_symbol stray_car = true /\
  dir_original (dir stray_car) = "x"%char /\
  In (LockDir (-1)) (car_thread stray_car sample_schedule) /\
  runs_in_bounds (car_thread stray_car sample_schedule) = false.
Proof.
  split; [reflexivity |]. split; [reflexivity |]. split.
  - vm_compute. tauto.
  - reflexivity.
Qed.

(** ** The program on concrete data *)

Example dir_to_index_symbols :
  map dir_to_index [ch_up; ch_down; ch_right; ch_left; "x"%char]
  = [DIR_N; DIR_S; DIR_E; DIR_W; -1].
Proof. reflexivity. Qed.

(** North to south, a U-turn, falls in the last case of [get_turn_type]. *)
Example turn_types_from_north :
  map (get_turn_type ch_up) [ch_up; ch_left; ch_right; ch_down] = [0; 1; 2; 2].
Proof. reflexivity. Qed.

(** An unknown target with a valid origin is no left turn and differs from
    the origin: it is handled as a right turn, one quadrant. *)
Example unknown_target_turns_right :
  get_turn_type ch_up "x" = 2 /\ get_quadrant_mask ch_up "x" = bit Q_SW.
Proof. split; reflexivity. Qed.

(** The quadrants of the eight cars of [init_cars]. *)
Example init_cars_quadrants :
  map (fun car => mask_quads (get_quadrant_mask (dir_original (dir car))
                                                 (dir_target (dir car))))
      init_cars
  = [ [Q_NW; Q_SW]; [Q_NW; Q_SW]; [Q_NW; Q_NE; Q_SW]; [Q_NE; Q_SE];
      [Q_NE; Q_SW; Q_SE]; [Q_NW; Q_SW]; [Q_NW; Q_NE; Q_SE]; [Q_SE] ].
Proof. reflexivity. Qed.

(** Before any car completed its stop nobody yields. *)
Example nobody_waits_at_start :
  map (earlier_car_waiting init_cars) init_cars = [0; 0; 0; 0; 0; 0; 0; 0].
Proof. reflexivity. Qed.

(** Car 7 yields to car 4, which stopped earlier and still waits; car 4
    does not yield to car 7. *)
Example sample_car_yields :
  earlier_car_waiting sample_cars sample_car = 1 /\
  earlier_car_waiting sample_cars sample_waiter = 0.
Proof. split; reflexivity. Qed.

(** A car from the south finds the south-west quadrant taken by the north;
    once both northern cars have left, the quadrant is free again. *)
Example south_waits_for_north :
  acquire_quad (quads sample_isect_2) Q_SW DIR_S = Waits /\
  (release_quad (quads sample_isect_2) Q_SW ≫= fun qs => release_quad qs Q_SW)
  = Some init_quads.
Proof. split; reflexivity. Qed.

(** The run of car 3 (north, turning left) when nothing delays it. *)
Example car_3_run :
  car_thread (new_car 3 (33 # 10) ch_up ch_left) sample_schedule
  = [ Print 3 ch_up ch_left "arriving"; SpinFor 2000000;
      LockState; SetStopComplete (31 # 10); UnlockState;
      LockDir 0;
      LockState; SetAtFront 1; SetWaiting 1; BroadcastState; UnlockState;
      LockState; EarlierCarWaiting 0; UnlockState;
      AcquireQuad 0 0; AcquireQuad 1 0; AcquireQuad 2 0;
      LockState; SetWaiting 0; SetCrossing 1; BroadcastState; UnlockState;
      UnlockDir 0;
      Print 3 ch_up ch_left "crossing"; SpinFor 5000000;
      LockState; SetCrossing 0; UnlockState;
      ReleaseQuad 2; ReleaseQuad 1; ReleaseQuad 0;
      Print 3 ch_up ch_left "exiting";
      LockState; SetDone 1; SetAtFront 0; BroadcastState; UnlockState ].
Proof. reflexivity. Qed.

(* ================================================================== *)
(** * Further properties of the quadrant locks *)

(** X1.  [release_quad] never waits.  On a quadrant whose count can be
    decremented it takes one off the count, frees the owner exactly when
    the count was 1, and leaves the other quadrants alone. *)
Theorem release_quad_effect (quads : list quadrant_t) (q : Z) (qd : quadrant_t) :
  quad_at quads q = Some qd ->
  INT_MIN < count qd <= INT_MAX ->
  exists quads',
    release_quad quads q = Some quads' /\
    quad_at quads' q
    = Some {| owner_dir := if count qd =? 1 then -1 else owner_dir qd;
              count := count qd - 1 |} /\
    (forall q', q' <> q -> quad_at quads' q' = quad_at quads q').
Proof.
  intros Hat Hcount. unfold release_quad. rewrite Hat.
  eexists. split; [reflexivity |]. split.
  - erewrite quad_at_insert_eq by exact Hat.
    unfold drop_quad. rewrite int_wrap_small
      by (unfold INT_MIN, INT_MAX in *; lia).
    do 2 f_equal.
    destruct (Z.eqb_spec (count qd - 1) 0), (Z.eqb_spec (count qd) 1);
      try reflexivity; lia.
  - intros q' Hne. apply quad_at_insert_ne; [| exact Hne].
    apply quad_at_Some in Hat. tauto.
Qed.

Lemma release_quad_effect_witness :
  quad_at (quads sample_isect_1) Q_SW = Some {| owner_dir := DIR_N; count := 1 |} /\
  exists quads',
    release_quad (quads sample_isect_1) Q_SW = Some quads' /\
    quad_at quads' Q_SW = Some free_quad.
Proof.
  split; [reflexivity |].
  destruct (release_quad_effect (quads sample_isect_1) Q_SW
              {| owner_dir := DIR_N; count := 1 |} eq_refl)
    as (quads' & Hrel & Hat & _).
  - unfold INT_MIN, INT_MAX. simpl. lia.
  - exists quads'. split; [exact Hrel | exact Hat].
Defined.

(** X2.  A quadrant in a consistent state (free with count 0, or owned with a
    positive count) that direction [d] may enter is back in the same state
    after [acquire_quad(q, d)] followed by [release_quad(q)]: the whole
    array is restored. *)
Theorem acquire_then_release_restores (quads : list quadrant_t) (q d : Z)
    (qd : quadrant_t) :
  quad_at quads q = Some qd ->
  0 <= count qd < INT_MAX ->
  (count qd = 0 <-> owner_dir qd = -1) ->
  owner_dir qd = -1 \/ owner_dir qd = d ->
  exists quads1,
    acquire_quad quads q d = Proceeds quads1 /\
    release_quad quads1 q = Some quads.
Proof.
  intros Hat Hcount Hfree Hown.
  unfold acquire_quad. rewrite Hat.
  rewrite (proj2 (must_wait_false qd d) Hown).
  eexists. split; [reflexivity |].
  unfold release_quad. erewrite quad_at_insert_eq by exact Hat.
  f_equal. rewrite list_insert_insert_eq.
  apply list_insert_id.
  apply quad_at_Some in Hat. destruct Hat as [_ Hl]. rewrite Hl. f_equal.
  unfold drop_quad, take_quad; simpl.
  rewrite (int_wrap_small (count qd + 1))
    by (unfold INT_MIN, INT_MAX in *; lia).
  replace (count qd + 1 - 1) with (count qd) by lia.
  rewrite int_wrap_small by (unfold INT_MIN, INT_MAX in *; lia).
  destruct qd as [o c]; simpl in *.
  destruct (Z.eqb_spec c 0) as [Hz | Hnz].
  - rewrite (proj1 Hfree Hz). reflexivity.
  - destruct Hown as [Ho | Ho]; [| rewrite Ho; reflexivity].
    exfalso. apply Hnz. apply Hfree. exact Ho.
Qed.

Lemma acquire_then_release_restores_witness :
  exists quads1,
    acquire_quad (quads sample_isect_2) Q_SW DIR_N = Proceeds quads1 /\
    release_quad quads1 Q_SW = Some (quads sample_isect_2).
Proof.
  apply (acquire_then_release_restores (quads sample_isect_2) Q_SW DIR_N
           {| owner_dir := DIR_N; count := 2 |}).
  - reflexivity.
  - unfold INT_MAX. simpl. lia.
  - simpl. unfold DIR_N. split; intros H; discriminate H.
  - right. reflexivity.
Defined.

(** Holders entered through [acquire_quad], so their quadrant is one of the
    four. *)
Lemma reachable_holders_in_range s :
  reachable s -> forall h, In h (holders s) -> 0 <= h_quad h < NUM_QUADS.
Proof.
  induction 1 as [| s s' Hreach IH Hstep]; [intros h [] |].
  pose proof (reachable_inv s Hreach) as (Hlen & _).
  destruct Hstep as [s q c d quads' Hc Hd Hfree Hacq | s h0 quads' Hin Hrel];
    simpl; intros h Hh.
  - destruct Hh as [<- | Hh]; [| auto]. simpl.
    unfold acquire_quad in Hacq.
    destruct (quad_at (quads s) q) as [qd |] eqn:Hat; [| discriminate].
    apply quad_at_Some in Hat. destruct Hat as [Hq Hl].
    apply lookup_lt_Some in Hl. rewrite Hlen in Hl.
    unfold NUM_QUADS in *. lia.
  - apply filter_In in Hh. apply IH. tauto.
Qed.

(** X3.  In every reachable state the count of a quadrant lies between 0 and the
    number of cars: [count++] never overflows and [count--] never goes
    below zero. *)
Theorem reachable_count_bounds (s : isect) (q : Z) (qd : quadrant_t) :
  reachable s ->
  quad_at (quads s) q = Some qd ->
  0 <= count qd <= NUM_CARS.
Proof.
  intros Hreach Hat. apply reachable_inv in Hreach.
  destruct Hreach as (_ & Hnd & Hrange & Hquads).
  destruct (Hquads q qd Hat) as [Hcount _].
  pose proof (holders_of_bound q (holders s) Hnd
                (fun h Hin => proj1 (Hrange h Hin))).
  lia.
Qed.

Lemma sample_isect_2_reach : reachable sample_isect_2.
Proof.
  apply (reach_step sample_isect_1).
  - apply (reach_step init_isect); [apply reach_init |].
    apply (step_acquire init_isect Q_SW 0 DIR_N (quads sample_isect_1));
      [unfold NUM_CARS; lia | unfold DIR_N; lia | reflexivity | reflexivity].
  - apply (step_acquire sample_isect_1 Q_SW 1 DIR_N (quads sample_isect_2));
      [unfold NUM_CARS; lia | unfold DIR_N; lia | reflexivity | reflexivity].
Defined.

Lemma reachable_count_bounds_witness :
  reachable sample_isect_2 /\
  quad_at (quads sample_isect_2) Q_SW = Some {| owner_dir := DIR_N; count := 2 |} /\
  0 <= 2 <= NUM_CARS.
Proof.
  split; [exact sample_isect_2_reach |]. split; [reflexivity |].
  exact (reachable_count_bounds sample_isect_2 Q_SW
           {| owner_dir := DIR_N; count := 2 |} sample_isect_2_reach eq_refl).
Defined.

(** X4.  While a car holds a quadrant, [acquire_quad] on that quadrant makes
    every caller of another direction wait and lets every caller of the
    holder's direction through. *)
Theorem held_quad_admits_same_direction_only (s : isect) (h : holder) (d : Z) :
  reachable s ->
  In h (holders s) ->
  (acquire_quad (quads s) (h_quad h) d = Waits <-> d <> h_dir h) /\
  (d = h_dir h ->
   exists quads', acquire_quad (quads s) (h_quad h) d = Proceeds quads').
Proof.
  intros Hreach Hin.
  pose proof (reachable_holders_in_range s Hreach h Hin) as Hq.
  pose proof (reachable_inv s Hreach) as (Hlen & _ & Hrange & Hquads).
  destruct (lookup_lt_is_Some_2 (quads s) (Z.to_nat (h_quad h))) as [qd Hqd].
  { rewrite Hlen. unfold NUM_QUADS in *. lia. }
  assert (Hat : quad_at (quads s) (h_quad h) = Some qd).
  { unfold quad_at. destruct (Z.ltb_spec (h_quad h) 0); [lia | exact Hqd]. }
  destruct (Hquads _ qd Hat) as (Hcount & Hpos & _ & Hdirs).
  assert (Hmine : In h (holders_of (h_quad h) (holders s))).
  { apply holders_of_In. auto. }
  assert (Hown : owner_dir qd = h_dir h).
  { symmetry. apply Hdirs. exact Hmine. }
  assert (Hheld : owner_dir qd <> -1).
  { destruct (Hrange h Hin) as [_ Hd]. lia. }
  unfold acquire_quad. rewrite Hat.
  destruct (must_wait qd d) eqn:Hw.
  - assert (Hno : ~ (owner_dir qd = -1 \/ owner_dir qd = d)).
    { intros H. apply must_wait_false in H. congruence. }
    split.
    + split; [intros _ Heq; apply Hno; right; congruence | reflexivity].
    + intros Heq. exfalso. apply Hno. right. congruence.
  - apply must_wait_false in Hw. split.
    + split; [discriminate |]. intros Hne. exfalso.
      destruct Hw as [Hw | Hw]; [contradiction | congruence].
    + intros _. eexists. reflexivity.
Qed.

Lemma held_quad_admits_same_direction_only_witness :
  acquire_quad (quads sample_isect_2) Q_SW DIR_E = Waits /\
  exists quads', acquire_quad (quads sample_isect_2) Q_SW DIR_N = Proceeds quads'.
Proof.
  assert (Hin : In {| h_quad := Q_SW; h_car := 0; h_dir := DIR_N |}
                   (holders sample_isect_2)) by (simpl; auto).
  split.
  - apply (proj1 (held_quad_admits_same_direction_only sample_isect_2 _ DIR_E
                    sample_isect_2_reach Hin)).
    simpl. unfold DIR_E, DIR_N. lia.
  - apply (proj2 (held_quad_admits_same_direction_only sample_isect_2 _ DIR_N
                    sample_isect_2_reach Hin)).
    reflexivity.
Defined.

Lemma drop_quad_value qd :
  INT_MIN < count qd <= INT_MAX ->
  drop_quad qd
  = {| owner_dir := if count qd =? 1 then -1 else owner_dir qd;
       count := count qd - 1 |}.
Proof.
  intros Hcount. unfold drop_quad.
  rewrite int_wrap_small by (unfold INT_MIN, INT_MAX in *; lia).
  f_equal.
  destruct (Z.eqb_spec (count qd - 1) 0), (Z.eqb_spec (count qd) 1);
    try reflexivity; lia.
Qed.

(** X5.  A holder can always release.  In a reachable state the quadrant of
    a holder has a count of at least 1, and [release_quad] on it is a step
    of the system: it does not fault, it leaves the quadrant with the count
    less by one, equal to the number of holders that remain, and with the
    owner set to free exactly when the holder was the last one, and it
    leaves the other quadrants as they were; the car is no longer among
    the holders of the quadrant. *)
Theorem holder_can_release (s : isect) (h : holder) :
  reachable s ->
  In h (holders s) ->
  exists qd quads',
    quad_at (quads s) (h_quad h) = Some qd /\
    1 <= count qd /\
    release_quad (quads s) (h_quad h) = Some quads' /\
    step s {| quads := quads';
              holders := List.filter
                           (fun h' => negb (same_slot (h_quad h) (h_car h) h'))
                           (holders s) |} /\
    quad_at quads' (h_quad h)
    = Some {| owner_dir := if count qd =? 1 then -1 else owner_dir qd;
              count := count qd - 1 |} /\
    (forall q', q' <> h_quad h -> quad_at quads' q' = quad_at (quads s) q') /\
    count qd - 1
    = Z.of_nat (length (holders_of (h_quad h)
                  (List.filter
                     (fun h' => negb (same_slot (h_quad h) (h_car h) h'))
                     (holders s)))) /\
    existsb (same_slot (h_quad h) (h_car h))
            (List.filter (fun h' => negb (same_slot (h_quad h) (h_car h) h'))
                         (holders s)) = false.
Proof.
  intros Hreach Hin.
  pose proof (reachable_holders_in_range s Hreach h Hin) as Hq.
  pose proof (reachable_inv s Hreach) as (Hlen & Hnd & Hrange & Hquads).
  destruct (lookup_lt_is_Some_2 (quads s) (Z.to_nat (h_quad h))) as [qd Hqd].
  { rewrite Hlen. unfold NUM_QUADS in *. lia. }
  assert (Hat : quad_at (quads s) (h_quad h) = Some qd).
  { unfold quad_at. destruct (Z.ltb_spec (h_quad h) 0); [lia | exact Hqd]. }
  destruct (Hquads _ qd Hat) as (Hcount & _).
  pose proof (holders_of_bound (h_quad h) (holders s) Hnd
                (fun h Hin => proj1 (Hrange h Hin))) as Hbound.
  pose proof (holders_of_remove_same h (holders s) Hnd Hin) as Hone.
  assert (Hrel : release_quad (quads s) (h_quad h)
                 = Some (<[Z.to_nat (h_quad h) := drop_quad qd]> (quads s))).
  { unfold release_quad. rewrite Hat. reflexivity. }
  exists qd, (<[Z.to_nat (h_quad h) := drop_quad qd]> (quads s)).
  split; [exact Hat |].
  split; [lia |].
  split; [exact Hrel |].
  split; [apply (step_release s h); assumption |].
  split.
  { erewrite quad_at_insert_eq by exact Hat.
    rewrite drop_quad_value; [reflexivity |].
    unfold INT_MIN, INT_MAX, NUM_CARS in *. lia. }
  split.
  { intros q' Hne. apply quad_at_insert_ne; [lia | exact Hne]. }
  split; [lia |].
  destruct (existsb _ _) eqn:Hex; [| reflexivity].
  apply existsb_exists in Hex. destruct Hex as (h' & Hin' & Hs).
  apply filter_In in Hin'. destruct Hin' as [_ Hneg].
  rewrite Hs in Hneg. discriminate Hneg.
Qed.

Lemma holder_can_release_witness :
  exists quads',
    release_quad (quads sample_isect_2) Q_SW = Some quads' /\
    quad_at quads' Q_SW = Some {| owner_dir := DIR_N; count := 1 |}.
Proof.
  destruct (holder_can_release sample_isect_2
              {| h_quad := Q_SW; h_car := 1; h_dir := DIR_N |}
              sample_isect_2_reach)
    as (qd & quads' & Hat & _ & Hrel & _ & Hnew & _).
  - simpl. auto.
  - exists quads'. split; [exact Hrel |].
    simpl in Hat. injection Hat as <-. exact Hnew.
Defined.

(* ================================================================== *)
(** * Further properties of the directions and the masks *)

(** X7.  Two symbols with the same index other than -1 are the same symbol, a
    symbol of the alphabet, and the index is one of the four entries of
    [dir_lock]: different approaches never share a gate. *)
Theorem dir_to_index_separates (a b : ascii) :
  dir_to_index a <> -1 ->
  dir_to_index a = dir_to_index b ->
  a = b /\ valid_dir a /\ 0 <= dir_to_index a < 4.
Proof.
  intros Hknown Heq.
  pose proof (dir_to_index_known a Hknown) as Hv.
  pose proof (dir_to_index_valid a Hv) as Hr.
  split; [| split; [exact Hv | lia]].
  symmetry. apply dir_to_index_same; [exact Hv | congruence].
Qed.

Lemma dir_to_index_separates_witness :
  ch_left = ch_left /\ valid_dir ch_left /\ 0 <= dir_to_index ch_left < 4.
Proof.
  apply (dir_to_index_separates ch_left ch_left).
  - vm_compute. discriminate.
  - reflexivity.
Defined.

Ltac each_dir H := destruct H as [-> | [-> | [-> | ->]]].

(** X8.  For a valid pair the crossing time is one second per quadrant of the
    path plus two seconds: the more quadrants a car holds, the longer it
    holds them. *)
Theorem crossing_time_counts_quadrants (orig target : ascii) :
  valid_dir orig -> valid_dir target ->
  get_crossing_time (get_turn_type orig target)
  = 1000000 * (2 + Z.of_nat (length (mask_quads (get_quadrant_mask orig target)))).
Proof.
  intros Ho Ht. each_dir Ho; each_dir Ht; reflexivity.
Qed.

Lemma crossing_time_counts_quadrants_witness :
  get_crossing_time (get_turn_type ch_down ch_right)
  = 1000000 * (2 + Z.of_nat (length (mask_quads (get_quadrant_mask ch_down ch_right)))).
Proof.
  apply (crossing_time_counts_quadrants ch_down ch_right);
    unfold valid_dir; auto.
Defined.

(** X9.  From one origin the paths are nested: of two valid targets, the one
    with no more quadrants has all its quadrants in the path of the other.
    In particular the quadrant of the right turn is on every path from that
    origin. *)
Theorem masks_of_one_origin_nest (orig t1 t2 : ascii) :
  valid_dir orig -> valid_dir t1 -> valid_dir t2 ->
  (length (mask_quads (get_quadrant_mask orig t1))
   <= length (mask_quads (get_quadrant_mask orig t2)))%nat ->
  incl (mask_quads (get_quadrant_mask orig t1))
       (mask_quads (get_quadrant_mask orig t2)).
Proof.
  intros Ho H1 H2. each_dir Ho; each_dir H1; each_dir H2;
    vm_compute; intros Hlen;
    try (exfalso; repeat apply le_S_n in Hlen; inversion Hlen; fail);
    intros x Hx; tauto.
Qed.

Lemma masks_of_one_origin_nest_witness :
  incl (mask_quads (get_quadrant_mask ch_up ch_up))
       (mask_quads (get_quadrant_mask ch_up ch_left)).
Proof.
  apply (masks_of_one_origin_nest ch_up ch_up ch_left);
    try (unfold valid_dir; auto 6).
  vm_compute. repeat constructor.
Defined.

(** X10.  Right turns from different origins use different quadrants, and so do
    straight crossings from opposite origins (north and south, east and
    west): such cars can be in the intersection together. *)
Theorem compatible_paths_are_disjoint (o1 t1 o2 t2 : ascii) :
  valid_dir o1 -> valid_dir t1 -> valid_dir o2 -> valid_dir t2 ->
  o1 <> o2 ->
  (get_turn_type o1 t1 = 2 /\ get_turn_type o2 t2 = 2) \/
  (get_turn_type o1 t1 = 0 /\ get_turn_type o2 t2 = 0 /\
   dir_to_index o1 / 2 = dir_to_index o2 / 2) ->
  Z.land (get_quadrant_mask o1 t1) (get_quadrant_mask o2 t2) = 0.
Proof.
  intros Ho1 Ht1 Ho2 Ht2 Hne Hturn.
  each_dir Ho1; each_dir Ht1; each_dir Ho2; each_dir Ht2;
    try congruence;
    vm_compute in Hturn;
    try reflexivity;
    exfalso; destruct Hturn as [[H1 H2] | (H1 & H2 & H3)]; congruence.
Qed.

Lemma compatible_paths_are_disjoint_witness :
  Z.land (get_quadrant_mask ch_up ch_up) (get_quadrant_mask ch_down ch_down) = 0.
Proof.
  apply (compatible_paths_are_disjoint ch_up ch_up ch_down ch_down);
    first [ unfold valid_dir; auto 6; fail
          | discriminate
          | right; repeat split ].
Defined.

(** X11.  A left turn shares a quadrant with every path that is not a right
    turn, whatever the origins; and two straight crossings from origins
    that are not opposite share a quadrant. *)
Theorem crossing_paths_share_a_quadrant (o1 t1 o2 t2 : ascii) :
  valid_dir o1 -> valid_dir t1 -> valid_dir o2 -> valid_dir t2 ->
  (get_turn_type o1 t1 = 1 /\ get_turn_type o2 t2 <> 2) \/
  (get_turn_type o1 t1 = 0 /\ get_turn_type o2 t2 = 0 /\
   dir_to_index o1 / 2 <> dir_to_index o2 / 2) ->
  Z.land (get_quadrant_mask o1 t1) (get_quadrant_mask o2 t2) <> 0.
Proof.
  intros Ho1 Ht1 Ho2 Ht2 Hturn.
  each_dir Ho1; each_dir Ht1; each_dir Ho2; each_dir Ht2;
    vm_compute in Hturn;
    try (vm_compute; discriminate);
    exfalso; destruct Hturn as [[H1 H2] | (H1 & H2 & H3)]; congruence.
Qed.

Lemma crossing_paths_share_a_quadrant_witness :
  Z.land (get_quadrant_mask ch_down ch_right) (get_quadrant_mask ch_right ch_up) <> 0.
Proof.
  apply (crossing_paths_share_a_quadrant ch_down ch_right ch_right ch_up);
    first [ unfold valid_dir; auto 6; fail
          | left; split; [reflexivity | discriminate] ].
Defined.

(* ================================================================== *)
(** * Further properties of the fairness test *)

Lemma contending_iff c :
  contending c = true <->
  done c = 0 /\ (0 < stop_complete_time c)%Q /\
  at_front c <> 0 /\ waiting c <> 0 /\ crossing c = 0.
Proof.
  unfold contending.
  rewrite !andb_true_iff, !negb_true_iff, !truthy_false, !truthy_true,
          Qlt_bool_iff.
  tauto.
Qed.

(** Among the contenders of a table one has the earliest stop time. *)
Lemma earliest_contender (cars : list car_info) :
  (exists c, In c cars /\ contending c = true) ->
  exists m, In m cars /\ contending m = true /\
    forall b, In b cars -> contending b = true ->
      (stop_complete_time m <= stop_complete_time b)%Q.
Proof.
  induction cars as [| x cars IH]; intros (c & Hin & Hc); [contradiction |].
  destruct (existsb contending cars) eqn:Hex.
  - apply existsb_exists in Hex. destruct (IH Hex) as (m & Hm & Hcm & Hmin).
    destruct (contending x) eqn:Hx.
    + destruct (Qlt_le_dec (stop_complete_time x) (stop_complete_time m))
        as [Hlt | Hle].
      * exists x. split; [left; reflexivity |]. split; [exact Hx |].
        intros b [<- | Hb] Hcb; [apply Qle_refl |].
        apply Qle_trans with (stop_complete_time m);
          [apply Qlt_le_weak; exact Hlt | auto].
      * exists m. split; [right; exact Hm |]. split; [exact Hcm |].
        intros b [<- | Hb] Hcb; [exact Hle | auto].
    + exists m. split; [right; exact Hm |]. split; [exact Hcm |].
      intros b [<- | Hb] Hcb; [congruence | auto].
  - assert (Hnone : forall b, In b cars -> contending b = false).
    { intros b Hb. destruct (contending b) eqn:Hcb; [| reflexivity].
      assert (existsb contending cars = true)
        by (apply existsb_exists; eauto).
      congruence. }
    destruct Hin as [<- | Hin]; [| rewrite (Hnone c Hin) in Hc; discriminate].
    exists x. split; [left; reflexivity |]. split; [exact Hc |].
    intros b [<- | Hb] Hcb; [apply Qle_refl |].
    rewrite (Hnone b Hb) in Hcb. discriminate.
Qed.

(** X12.  The fairness rule cannot stop everybody: whenever some car of the table
    contends (not done, stop time set, at the front, waiting, not
    crossing), a contender with a stop time at least as early passes the
    test, that is [earlier_car_waiting] returns 0 for it. *)
Theorem earliest_contender_passes (cars : list car_info) (c : car_info) :
  In c cars ->
  contending c = true ->
  exists m,
    In m cars /\ contending m = true /\
    (stop_complete_time m <= stop_complete_time c)%Q /\
    earlier_car_waiting cars m = 0.
Proof.
  intros Hin Hc.
  destruct (earliest_contender cars) as (m & Hm & Hcm & Hmin); [eauto |].
  exists m. split; [exact Hm |]. split; [exact Hcm |].
  split; [apply Hmin; assumption |].
  unfold earlier_car_waiting.
  destruct (earlier_loop_bool (cid m) (stop_complete_time m)
              (dir_to_index (dir_original (dir m))) cars) as [H0 | H1];
    [exact H0 |].
  exfalso. apply earlier_loop_one in H1.
  destruct H1 as (b & Hb & _ & Hdone & _ & Hstuck).
  apply stuck_before_iff in Hstuck.
  destruct Hstuck as (Hpos & Hlt & Hf & Hw & Hcr).
  assert (Hcb : contending b = true) by (apply contending_iff; auto).
  specialize (Hmin b Hb Hcb).
  exact (Qlt_not_le _ _ Hlt Hmin).
Qed.

Lemma earliest_contender_passes_witness :
  exists m,
    In m sample_cars /\ contending m = true /\
    (stop_complete_time m <= stop_complete_time sample_waiter)%Q /\
    earlier_car_waiting sample_cars m = 0.
Proof.
  apply (earliest_contender_passes sample_cars sample_waiter).
  - simpl. auto.
  - reflexivity.
Defined.

(* ================================================================== *)
(** * Further properties of the car thread *)

(** X13.  A run logs three lines, "arriving", "crossing" and "exiting", in this
    order and with the car's id and direction pair, however long the car
    polls the clock or waits for its turn. *)
Theorem car_thread_prints (car : car_info) (sch : schedule) :
  List.filter is_print (car_thread car sch)
  = [ Print (cid car) (dir_original (dir car)) (dir_target (dir car)) "arriving";
      Print (cid car) (dir_original (dir car)) (dir_target (dir car)) "crossing";
      Print (cid car) (dir_original (dir car)) (dir_target (dir car)) "exiting" ].
Proof.
  unfold car_thread, ArriveIntersection, CrossIntersection, ExitIntersection.
  destruct (filter_waits is_print (arrival_polls sch) (blocked_rounds sch))
    as [Hp Hf]; try reflexivity.
  rewrite !List.filter_app, Hp, Hf. simpl.
  rewrite acquire_all_map, release_all_map.
  rewrite !filter_map_none by reflexivity.
  reflexivity.
Qed.

Lemma run_events_release_all c mask : run_events c (release_all mask) = c.
Proof.
  apply run_events_inert. intros e c' Hin.
  rewrite release_all_map in Hin. apply in_map_iff in Hin.
  destruct Hin as (q & <- & _). reflexivity.
Qed.

(** X14.  When its thread has run, the car's entry says: done, not at the front,
    not waiting, not crossing, with the stop time that was read after the
    stop; id, arrival time and directions are as they were. *)
Theorem car_thread_final_entry (car : car_info) (sch : schedule) :
  let c := run_events car (car_thread car sch) in
  done c = 1 /\ at_front c = 0 /\ waiting c = 0 /\ crossing c = 0 /\
  stop_complete_time c = stop_clock sch /\
  cid c = cid car /\ arrival_time c = arrival_time car /\ dir c = dir car.
Proof.
  unfold car_thread, ArriveIntersection, CrossIntersection, ExitIntersection.
  cbv zeta.
  rewrite !run_events_app.
  rewrite run_events_polls, run_events_fairness_wait,
          run_events_acquire_all, run_events_release_all.
  repeat split.
Qed.

(** *** The state lock *)

(** The check is not satisfied by every run: sleeping with the lock, or
    writing the table without it, is refused. *)
Example state_lock_ok_refuses :
  state_lock_ok false [LockState; SpinFor 1; UnlockState] = false /\
  state_lock_ok false [SetWaiting 1] = false /\
  state_lock_ok false [LockState; SetWaiting 1] = false.
Proof. repeat split. Qed.

Lemma state_lock_ok_polls n rest :
  state_lock_ok false (repeat (Usleep 1000) n ++ rest) = state_lock_ok false rest.
Proof. induction n as [| n IH]; simpl; [reflexivity | exact IH]. Qed.

Lemma state_lock_ok_fairness_wait n rest :
  state_lock_ok false (fairness_wait n ++ rest) = state_lock_ok false rest.
Proof. induction n as [| n IH]; simpl; [reflexivity | exact IH]. Qed.

Lemma state_lock_ok_acquire_all mask d rest :
  state_lock_ok false (acquire_all mask d ++ rest) = state_lock_ok false rest.
Proof.
  unfold acquire_all, quad_indices. simpl.
  destruct (in_mask mask 0), (in_mask mask 1), (in_mask mask 2),
           (in_mask mask 3); reflexivity.
Qed.

Lemma state_lock_ok_release_all mask rest :
  state_lock_ok false (release_all mask ++ rest) = state_lock_ok false rest.
Proof.
  unfold release_all, quad_indices. simpl.
  destruct (in_mask mask 0), (in_mask mask 1), (in_mask mask 2),
           (in_mask mask 3); reflexivity.
Qed.

(** X15.  A thread takes and gives back [state_lock] in turn, holds it for every
    access to the shared table and to [state_cond], and never keeps it
    while it sleeps, prints, or locks a gate or a quadrant; at the end of
    the run the lock is free. *)
Theorem car_thread_state_lock (car : car_info) (sch : schedule) :
  state_lock_ok false (car_thread car sch) = true.
Proof.
  unfold car_thread, ArriveIntersection, CrossIntersection, ExitIntersection.
  cbv zeta.
  rewrite state_lock_ok_polls. simpl.
  rewrite state_lock_ok_fairness_wait.
  rewrite <- app_assoc, state_lock_ok_acquire_all. simpl.
  rewrite state_lock_ok_release_all. reflexivity.
Qed.

(** *** A car that crosses without interference *)
Lemma acquire_then_release_restores_aux quads q d qd :
  quad_at quads q = Some qd ->
  0 <= count qd < INT_MAX ->
  (count qd = 0 <-> owner_dir qd = -1) ->
  owner_dir qd = -1 \/ owner_dir qd = d ->
  exists quads1,
    acquire_quad quads q d = Proceeds quads1 /\
    release_quad quads1 q = Some quads /\
    (forall q', q' <> q -> quad_at quads1 q' = quad_at quads q').
Proof.
  intros Hat Hcount Hfree Hown.
  assert (Hq : 0 <= q) by (apply quad_at_Some in Hat; tauto).
  unfold acquire_quad. rewrite Hat.
  rewrite (proj2 (must_wait_false qd d) Hown).
  eexists. split; [reflexivity |]. split.
  - unfold release_quad. erewrite quad_at_insert_eq by exact Hat.
    f_equal. rewrite list_insert_insert_eq.
    apply list_insert_id.
    apply quad_at_Some in Hat. destruct Hat as [_ Hl]. rewrite Hl. f_equal.
    unfold drop_quad, take_quad; simpl.
    rewrite (int_wrap_small (count qd + 1))
      by (unfold INT_MIN, INT_MAX in *; lia).
    replace (count qd + 1 - 1) with (count qd) by lia.
    rewrite int_wrap_small by (unfold INT_MIN, INT_MAX in *; lia).
    destruct qd as [o c]; simpl in *.
    destruct (Z.eqb_spec c 0) as [Hz | Hnz].
    + rewrite (proj1 Hfree Hz). reflexivity.
    + destruct Hown as [Ho | Ho]; [| rewrite Ho; reflexivity].
      exfalso. apply Hnz. apply Hfree. exact Ho.
  - intros q' Hne. apply quad_at_insert_ne; assumption.
Qed.


Lemma run_quads_app quads es1 es2 :
  run_quads quads (es1 ++ es2)
  = match run_quads quads es1 with
    | Proceeds quads' => run_quads quads' es2
    | Waits => Waits
    | Faults => Faults
    end.
Proof.
  revert quads. induction es1 as [| e es1 IH]; intros quads; simpl;
    [reflexivity |].
  destruct e; try apply IH.
  - destruct (acquire_quad quads q d); [apply IH | reflexivity | reflexivity].
  - destruct (release_quad quads q); [apply IH | reflexivity].
Qed.

Lemma run_quads_inert quads es :
  List.filter is_acquire es = [] -> List.filter is_release es = [] ->
  run_quads quads es = Proceeds quads.
Proof.
  induction es as [| e es IH]; simpl; [reflexivity |].
  destruct e; simpl; intros Ha Hr; try (apply IH; assumption); discriminate.
Qed.

Lemma mask_quads_NoDup mask : List.NoDup (mask_quads mask).
Proof.
  unfold mask_quads, quad_indices. simpl.
  destruct (in_mask mask 0), (in_mask mask 1), (in_mask mask 2),
           (in_mask mask 3);
    repeat (constructor; [simpl; lia |]); constructor.
Qed.

(** Nested acquisitions and releases of distinct enterable quadrants leave
    the array as it was. *)
Lemma run_quads_nested d mid :
  (forall quads, run_quads quads mid = Proceeds quads) ->
  forall l quads,
    List.NoDup l ->
    (forall q, In q l -> exists qd, quad_at quads q = Some qd /\ enterable qd d) ->
    run_quads quads (map (fun q => AcquireQuad q d) l ++ mid
                     ++ map ReleaseQuad (rev l))
    = Proceeds quads.
Proof.
  intros Hmid. induction l as [| q l IH]; intros quads Hnd Hok.
  - simpl. rewrite app_nil_r. apply Hmid.
  - apply NoDup_cons_iff in Hnd. destruct Hnd as [Hq Hnd].
    destruct (Hok q (or_introl eq_refl)) as (qd & Hat & Hcount & Hfree & Hown).
    destruct (acquire_then_release_restores_aux quads q d qd Hat Hcount Hfree Hown)
      as (quads1 & Hacq & Hrel & Hother).
    simpl. rewrite Hacq.
    rewrite map_app, !app_assoc, run_quads_app, <- app_assoc.
    rewrite IH.
    + simpl. rewrite Hrel. reflexivity.
    + exact Hnd.
    + intros q' Hq'. rewrite Hother by (intros ->; contradiction).
      apply Hok. right. exact Hq'.
Qed.

(** X16.  A car all of whose quadrants are free, or owned by its own direction,
    goes through its whole run without waiting when no other thread
    changes the quadrants in between, and leaves the array [quads] exactly
    as it found it: every quadrant it acquired has been released. *)
Theorem car_alone_restores_quads (car : car_info) (sch : schedule)
    (quads : list quadrant_t) :
  (forall q,
     In q (mask_quads (get_quadrant_mask (dir_original (dir car))
                                         (dir_target (dir car)))) ->
     exists qd, quad_at quads q = Some qd /\
                enterable qd (dir_to_index (dir_original (dir car)))) ->
  run_quads quads (car_thread car sch) = Proceeds quads.
Proof.
  intros Hok.
  unfold car_thread, ArriveIntersection, CrossIntersection, ExitIntersection.
  cbv zeta.
  destruct (filter_waits is_acquire (arrival_polls sch) (blocked_rounds sch))
    as [Hap Haf]; try reflexivity.
  destruct (filter_waits is_release (arrival_polls sch) (blocked_rounds sch))
    as [Hrp Hrf]; try reflexivity.
  rewrite run_quads_app, (run_quads_inert _ _ Hap Hrp).
  rewrite run_quads_app, run_quads_app. simpl.
  rewrite (run_quads_inert _ _ Haf Hrf).
  rewrite run_quads_app.
  rewrite acquire_all_map, release_all_map.
  pose proof (run_quads_nested (dir_to_index (dir_original (dir car)))
                [ LockState; SetWaiting 0; SetCrossing 1; BroadcastState;
                  UnlockState;
                  UnlockDir (dir_to_index (dir_original (dir car)));
                  Print (cid car) (dir_original (dir car))
                        (dir_target (dir car)) "crossing";
                  SpinFor (get_crossing_time
                             (get_turn_type (dir_original (dir car))
                                            (dir_target (dir car))));
                  LockState; SetCrossing 0; UnlockState ]
                (fun quads' => eq_refl) _ quads
                (mask_quads_NoDup _) Hok) as Hnest.
  simpl in Hnest. rewrite Hnest. reflexivity.
Qed.

Lemma car_alone_restores_quads_witness :
  run_quads (quads sample_isect_2)
            (car_thread (new_car 3 (33 # 10) ch_up ch_left) sample_schedule)
  = Proceeds (quads sample_isect_2).
Proof.
  apply (car_alone_restores_quads (new_car 3 (33 # 10) ch_up ch_left)
           sample_schedule (quads sample_isect_2)).
  intros q Hq. vm_compute in Hq.
  destruct Hq as [<- | [<- | [<- | []]]]; eexists;
    (split; [reflexivity |]); unfold enterable, INT_MAX; simpl;
    (split; [lia |]); (split; [split; intros H; first [discriminate H | reflexivity] |]);
    first [left; reflexivity | right; reflexivity].
Defined.

(* ================================================================== *)
(** * All the threads together: no two directions in one quadrant *)

(** ** The path rule along one run *)

Lemma held_by_snoc pre e : held_by (pre ++ [e]) = held_step (held_by pre) e.
Proof. unfold held_by. rewrite fold_left_app. reflexivity. Qed.

Lemma path_ok_app path d held c pre rest :
  path_ok path d held c (pre ++ rest)
  = path_ok path d held c pre
    && path_ok path d (fold_left held_step pre held) (run_events c pre) rest.
Proof.
  revert held c. induction pre as [| e pre IH]; intros held c; simpl;
    [reflexivity |].
  rewrite IH, andb_assoc. reflexivity.
Qed.

Lemma path_ok_polls path d held c n rest :
  path_ok path d held c (repeat (Usleep 1000) n ++ rest)
  = path_ok path d held c rest.
Proof. induction n as [| n IH]; simpl; [reflexivity | exact IH]. Qed.

Lemma path_ok_fairness_wait path d held c n rest :
  path_ok path d held c (fairness_wait n ++ rest)
  = path_ok path d held c rest.
Proof. induction n as [| n IH]; simpl; [reflexivity | exact IH]. Qed.

(** Every run of a car thread obeys the rule of its path. *)
Lemma car_thread_path_ok car sch :
  crossing car = 0 ->
  path_ok (mask_quads (get_quadrant_mask (dir_original (dir car))
                                         (dir_target (dir car))))
          (dir_to_index (dir_original (dir car))) [] car
          (car_thread car sch) = true.
Proof.
  intros Hcr.
  unfold car_thread, ArriveIntersection, CrossIntersection, ExitIntersection.
  cbv zeta.
  set (mask := get_quadrant_mask _ _).
  set (d := dir_to_index _).
  rewrite path_ok_polls. simpl.
  rewrite path_ok_fairness_wait.
  unfold acquire_all, release_all, mask_quads, quad_indices. simpl.
  destruct (in_mask mask 0), (in_mask mask 1), (in_mask mask 2),
           (in_mask mask 3);
    simpl; unfold truthy; simpl; rewrite ?Hcr, ?Z.eqb_refl; reflexivity.
Qed.

(** While [crossing] is set the whole path is held. *)
Lemma path_ok_crossing_holds path d pre :
  forall held c,
    (truthy (crossing c) = true -> forall q, In q path -> In q held) ->
    path_ok path d held c pre = true ->
    truthy (crossing (run_events c pre)) = true ->
    forall q, In q path -> In q (fold_left held_step pre held).
Proof.
  induction pre as [| e pre IH]; intros held c Hinv Hok; simpl in *;
    [exact Hinv |].
  apply andb_true_iff in Hok. destruct Hok as [He Hok].
  apply (IH (held_step held e) (apply_event c e)); [| exact Hok].
  destruct e; simpl in *; try exact Hinv.
  - (* SetCrossing *)
    intros Hv q Hq. rewrite Hv in He. simpl in He.
    rewrite forallb_forall in He. specialize (He q Hq).
    unfold mem_quad in He. apply existsb_exists in He.
    destruct He as (q' & Hin & Heq). apply Z.eqb_eq in Heq. subst q'. exact Hin.
  - (* AcquireQuad *)
    intros Hc. rewrite !andb_true_iff in He. destruct He as (_ & He).
    rewrite Hc in He. discriminate He.
  - (* ReleaseQuad *)
    intros Hc. rewrite !andb_true_iff in He. destruct He as (_ & He).
    rewrite Hc in He. discriminate He.
Qed.

Lemma mem_quad_In q l : mem_quad q l = true <-> In q l.
Proof.
  unfold mem_quad. rewrite existsb_exists. split.
  - intros (q' & Hin & Heq). apply Z.eqb_eq in Heq. subst q'. exact Hin.
  - intros Hin. exists q. split; [exact Hin | apply Z.eqb_refl].
Qed.

Lemma run_events_dir c es : dir (run_events c es) = dir c.
Proof.
  revert c. induction es as [| e es IH]; intros c; [reflexivity |].
  unfold run_events in *. simpl. rewrite IH. destruct e; reflexivity.
Qed.

(** A car with a quadrant on its path comes from a valid origin. *)
Lemma mask_quads_valid_origin o t q :
  In q (mask_quads (get_quadrant_mask o t)) -> 0 <= dir_to_index o <= 3.
Proof.
  intros Hin. apply dir_to_index_valid.
  destruct (dir_to_index o =? -1) eqn:E.
  - exfalso. apply Z.eqb_eq in E.
    assert (Hnv : ~ valid_dir o).
    { intros Hv. apply dir_to_index_valid in Hv. lia. }
    rewrite (get_quadrant_mask_unknown o t Hnv) in Hin. exact Hin.
  - apply dir_to_index_known. apply Z.eqb_neq. exact E.
Qed.

(** Two masks that meet have a quadrant in common. *)
Lemma masks_meet m1 m2 :
  0 <= m1 < 16 -> 0 <= m2 < 16 ->
  Z.land m1 m2 <> 0 ->
  exists q, In q (mask_quads m1) /\ In q (mask_quads m2).
Proof.
  intros H1 H2 Hne.
  destruct (existsb (fun q => mem_quad q (mask_quads m2)) (mask_quads m1)) eqn:E.
  - apply existsb_exists in E. destruct E as (q & Hq1 & Hq2).
    exists q. split; [exact Hq1 | apply mem_quad_In; exact Hq2].
  - exfalso. apply Hne. apply Z.bits_inj_0. intros n.
    destruct (Z.neg_nonneg_cases n) as [Hneg | Hnn];
      [apply Z.testbit_neg_r; exact Hneg |].
    rewrite Z.land_spec.
    destruct (Z.testbit m1 n) eqn:E1; [| reflexivity].
    destruct (Z.testbit m2 n) eqn:E2; [| reflexivity].
    apply (mask_quads_testbit m1 n H1 Hnn) in E1.
    apply (mask_quads_testbit m2 n H2 Hnn) in E2.
    assert (Ht : existsb (fun q => mem_quad q (mask_quads m2)) (mask_quads m1)
                 = true).
    { apply existsb_exists. exists n. split; [exact E1 |].
      apply mem_quad_In. exact E2. }
    congruence.
Qed.

(** ** The invariant of the worlds *)

Lemma lookup_map {A B : Type} (f : A -> B) (l : list A) (i : nat) :
  map f l !! i = option_map f (l !! i).
Proof.
  revert i. induction l as [| x l IH]; intros [| i]; simpl; auto.
Qed.

Lemma init_world_inv cs : world_inv cs (init_world cs).
Proof.
  exists (map (fun _ => []) cs), [].
  split; [apply reach_init |].
  split; [apply length_map |].
  split; [apply length_map |].
  split.
  - intros i car sch pre t Hcs Hpre Ht. simpl in Ht.
    rewrite lookup_map, Hcs in Ht. rewrite lookup_map, Hcs in Hpre.
    simpl in *. injection Ht as <-. injection Hpre as <-.
    split; reflexivity.
  - intros h. split; [intros [] |].
    intros (i & car & sch & pre & Hcs & Hpre & _ & _ & Hin).
    rewrite lookup_map, Hcs in Hpre. simpl in Hpre. injection Hpre as <-.
    exact Hin.
Qed.

Section WorldStep.

Variable cs : list (car_info * schedule).
Variable pres : list (list event).
Variable hs : list holder.
Variables (i : nat) (car : car_info) (sch : schedule) (pre : list event).

Hypothesis Hcs : cs !! i = Some (car, sch).
Hypothesis Hpre : pres !! i = Some pre.
Hypothesis Hhs : forall h, In h hs <-> holds_rel cs pres h.

Let d := dir_to_index (dir_original (dir car)).

(** The holders that are thread [i]. *)
Lemma holders_of_thread h :
  h_car h = Z.of_nat i ->
  (In h hs <-> h_dir h = d /\ In (h_quad h) (held_by pre)).
Proof.
  intros Hc. rewrite Hhs. split.
  - intros (i' & car' & sch' & pre' & Hcs' & Hpre' & Hc' & Hd' & Hin').
    assert (i' = i) by lia. subst i'.
    rewrite Hcs in Hcs'. injection Hcs' as <- <-.
    rewrite Hpre in Hpre'. injection Hpre' as <-.
    auto.
  - intros [Hd Hin]. exists i, car, sch, pre. auto.
Qed.

(** The holders after thread [i] went from [pre] to [pre']. *)
Lemma holds_rel_update pre' h :
  holds_rel cs (<[i := pre']> pres) h <->
  (h_car h <> Z.of_nat i /\ In h hs) \/
  (h_car h = Z.of_nat i /\ h_dir h = d /\ In (h_quad h) (held_by pre')).
Proof.
  assert (Hlt : (i < length pres)%nat) by (eapply lookup_lt_Some; exact Hpre).
  split.
  - intros (j & car' & sch' & p & Hcs' & Hp & Hc & Hd & Hin).
    destruct (Nat.eq_dec j i) as [-> | Hne].
    + right. rewrite list_lookup_insert_eq in Hp by exact Hlt.
      injection Hp as <-. rewrite Hcs in Hcs'. injection Hcs' as <- <-. auto.
    + left. split; [lia |]. apply Hhs.
      rewrite list_lookup_insert_ne in Hp by auto.
      exists j, car', sch', p. auto.
  - intros [[Hne Hin] | (Hc & Hd & Hin)].
    + apply Hhs in Hin.
      destruct Hin as (j & car' & sch' & p & Hcs' & Hp & Hc & Hd & Hin).
      exists j, car', sch', p. split; [exact Hcs' |]. split; [| auto].
      rewrite list_lookup_insert_ne; [exact Hp |]. intros ->. lia.
    + exists i, car, sch, pre'. split; [exact Hcs |]. split; [| auto].
      apply list_lookup_insert_eq. exact Hlt.
Qed.

End WorldStep.

(** An event that is neither an acquisition nor a release leaves the
    quadrants and what the thread holds as they are. *)
Lemma other_event_effect tbl c quads e quads' held :
  is_acquire e = false -> is_release e = false ->
  event_effect tbl c quads e = Some quads' ->
  quads' = quads /\ held_step held e = held.
Proof.
  destruct e; simpl; intros Ha Hr Heff; try discriminate;
    try (injection Heff as <-; auto; fail).
  destruct (r =? earlier_car_waiting tbl c); [| discriminate].
  injection Heff as <-. auto.
Qed.

(** One event of one thread, seen from the quadrant locks: the holders
    change as the thread's held quadrants do, and the new state of the
    locks is reachable. *)
Lemma wstep_holders cs pres hs i car sch pre e rest tbl quads quads' :
  (length cs <= Z.to_nat NUM_CARS)%nat ->
  crossing car = 0 ->
  cs !! i = Some (car, sch) ->
  pres !! i = Some pre ->
  (forall h, In h hs <-> holds_rel cs pres h) ->
  car_thread car sch = pre ++ e :: rest ->
  reachable {| quads := quads; holders := hs |} ->
  event_effect tbl (run_events car pre) quads e = Some quads' ->
  exists hs',
    reachable {| quads := quads'; holders := hs' |} /\
    forall h, In h hs' <-> holds_rel cs (<[i := pre ++ [e]]> pres) h.
Proof.
  intros Hlen Hcr Hcs Hpre Hhs Htrace Hreach Heff.
  set (d := dir_to_index (dir_original (dir car))).
  set (path := mask_quads (get_quadrant_mask (dir_original (dir car))
                                             (dir_target (dir car)))).
  assert (Hi : 0 <= Z.of_nat i < NUM_CARS).
  { apply lookup_lt_Some in Hcs. unfold NUM_CARS in *. lia. }
  assert (Hmine : forall h, h_car h = Z.of_nat i ->
            (In h hs <-> h_dir h = d /\ In (h_quad h) (held_by pre))).
  { intros h Hc. exact (holders_of_thread cs pres hs i car sch pre
                          Hcs Hpre Hhs h Hc). }
  pose proof (car_thread_path_ok car sch Hcr) as Hok.
  rewrite Htrace, path_ok_app in Hok. apply andb_true_iff in Hok.
  destruct Hok as [_ Hok]. simpl in Hok. apply andb_true_iff in Hok.
  destruct Hok as [He _]. fold (held_by pre) in He. fold d path in He.
  assert (Hupd : forall hs',
            (forall h, In h hs' <->
               (h_car h <> Z.of_nat i /\ In h hs) \/
               (h_car h = Z.of_nat i /\ h_dir h = d /\
                In (h_quad h) (held_step (held_by pre) e))) ->
            forall h, In h hs' <-> holds_rel cs (<[i := pre ++ [e]]> pres) h).
  { intros hs' H h. rewrite H.
    rewrite (holds_rel_update cs pres hs i car sch pre Hcs Hpre Hhs).
    rewrite held_by_snoc. reflexivity. }
  destruct (is_acquire e) eqn:Hacq; [| destruct (is_release e) eqn:Hrel].
  - (* acquire_quad *)
    destruct e; try discriminate. simpl in He, Heff.
    rewrite !andb_true_iff, !negb_true_iff in He.
    destruct He as (((Hd & Hpath) & Hheld) & _).
    apply Z.eqb_eq in Hd. subst d0. apply mem_quad_In in Hpath.
    destruct (acquire_quad quads q d) as [quads1 | |] eqn:Hq; try discriminate.
    injection Heff as <-.
    exists ({| h_quad := q; h_car := Z.of_nat i; h_dir := d |} :: hs). split.
    + apply (reach_step {| quads := quads; holders := hs |}); [exact Hreach |].
      apply (step_acquire {| quads := quads; holders := hs |} q (Z.of_nat i) d).
      * exact Hi.
      * apply (mask_quads_valid_origin _ _ q Hpath).
      * unfold holds; simpl.
        destruct (existsb (same_slot q (Z.of_nat i)) hs) eqn:Hex; [| reflexivity].
        apply existsb_exists in Hex. destruct Hex as (h & Hin & Hs).
        apply same_slot_true in Hs. unfold slot in Hs. injection Hs as Hq' Hc'.
        apply (Hmine h Hc') in Hin. destruct Hin as [_ Hin].
        rewrite Hq' in Hin. apply mem_quad_In in Hin. congruence.
      * exact Hq.
    + apply Hupd. intros h. simpl. split.
      * intros [<- | Hin]; [right; simpl; auto |].
        destruct (Z.eq_dec (h_car h) (Z.of_nat i)) as [Hc | Hc]; [| auto].
        right. apply (Hmine h Hc) in Hin. tauto.
      * intros [[Hc Hin] | (Hc & Hd & [Hq' | Hin])]; [auto | |].
        -- left. destruct h as [hq hc hd]; simpl in *. congruence.
        -- right. apply (Hmine h Hc). auto.
  - (* release_quad *)
    destruct e; try discriminate. simpl in He, Heff.
    rewrite !andb_true_iff in He. destruct He as [Hheld _].
    apply mem_quad_In in Hheld.
    set (h0 := {| h_quad := q; h_car := Z.of_nat i; h_dir := d |}).
    assert (Hin0 : In h0 hs) by (apply (Hmine h0 eq_refl); simpl; auto).
    exists (List.filter (fun h' => negb (same_slot (h_quad h0) (h_car h0) h')) hs).
    split.
    + apply (reach_step {| quads := quads; holders := hs |}); [exact Hreach |].
      apply (step_release {| quads := quads; holders := hs |} h0);
        [exact Hin0 | exact Heff].
    + apply Hupd. intros h. rewrite filter_In, negb_true_iff. simpl.
      rewrite filter_In, negb_true_iff, Z.eqb_neq.
      assert (Hslot : same_slot q (Z.of_nat i) h = false <->
                      ~ (h_quad h = q /\ h_car h = Z.of_nat i)).
      { rewrite <- not_true_iff_false, same_slot_true. unfold slot.
        split; intros H H'; apply H;
          [destruct H'; congruence | injection H'; auto]. }
      rewrite Hslot.
      destruct (Z.eq_dec (h_car h) (Z.of_nat i)) as [Hc | Hc].
      * rewrite (Hmine h Hc). tauto.
      * tauto.
  - (* any other event *)
    destruct (other_event_effect _ _ _ _ _ (held_by pre) Hacq Hrel Heff)
      as [-> Hsame].
    exists hs. split; [exact Hreach |].
    apply Hupd. intros h. rewrite Hsame.
    destruct (Z.eq_dec (h_car h) (Z.of_nat i)) as [Hc | Hc].
    + rewrite (Hmine h Hc). tauto.
    + tauto.
Qed.

Lemma wstep_inv cs w w' :
  (length cs <= Z.to_nat NUM_CARS)%nat ->
  (forall car sch, In (car, sch) cs -> crossing car = 0) ->
  world_inv cs w -> wstep w w' -> world_inv cs w'.
Proof.
  intros Hlen Hcr (pres & hs & Hreach & Hlp & Hlt & Hthreads & Hhs) Hstep.
  destruct Hstep as [w i c e rest quads' Hi Heff].
  assert (Hilt : (i < length cs)%nat).
  { rewrite <- Hlt. eapply lookup_lt_Some. exact Hi. }
  destruct (lookup_lt_is_Some_2 cs i Hilt) as [[car sch] Hcs].
  destruct (lookup_lt_is_Some_2 pres i) as [pre Hpre]; [lia |].
  destruct (Hthreads i car sch pre _ Hcs Hpre Hi) as [Htrace Hc].
  simpl in Htrace, Hc. subst c.
  assert (Hcar : crossing car = 0).
  { apply (Hcr car sch). apply list_elem_of_In.
    eapply list_elem_of_lookup_2. exact Hcs. }
  destruct (wstep_holders cs pres hs i car sch pre e rest (table w)
              (w_quads w) quads' Hlen Hcar Hcs Hpre Hhs Htrace Hreach Heff)
    as (hs' & Hreach' & Hhs').
  exists (<[i := pre ++ [e]]> pres), hs'. simpl.
  split; [exact Hreach' |].
  split; [rewrite length_insert; exact Hlp |].
  split; [rewrite length_insert; exact Hlt |].
  split; [| exact Hhs'].
  intros j car' sch' pre' t' Hcs' Hpre' Ht'.
  destruct (Nat.eq_dec j i) as [-> | Hne].
  - rewrite list_lookup_insert_eq in Hpre' by lia.
    rewrite list_lookup_insert_eq in Ht' by lia.
    injection Hpre' as <-. injection Ht' as <-.
    rewrite Hcs in Hcs'. injection Hcs' as <- <-. simpl.
    split.
    + rewrite <- app_assoc. exact Htrace.
    + rewrite run_events_app. reflexivity.
  - rewrite list_lookup_insert_ne in Hpre' by auto.
    rewrite list_lookup_insert_ne in Ht' by auto.
    apply (Hthreads j car' sch' pre' t'); assumption.
Qed.

Lemma wreach_inv cs w :
  (length cs <= Z.to_nat NUM_CARS)%nat ->
  (forall car sch, In (car, sch) cs -> crossing car = 0) ->
  wreach (init_world cs) w -> world_inv cs w.
Proof.
  intros Hlen Hcr. induction 1 as [| w w' Hreach IH Hstep].
  - apply init_world_inv.
  - apply (wstep_inv cs w w'); assumption.
Qed.

(** X17.  Start at most [NUM_CARS] threads on cars that are not crossing, with
    any schedules, and let them run in any interleaving.  Then at no time
    are two cars crossing (their [crossing] flags set) that come from
    origins with different indices and whose paths have a quadrant in
    common. *)
Theorem crossing_cars_do_not_meet (cs : list (car_info * schedule)) (w : world)
    (i j : nat) (ti tj : thread) :
  (length cs <= Z.to_nat NUM_CARS)%nat ->
  (forall car sch, In (car, sch) cs -> crossing car = 0) ->
  wreach (init_world cs) w ->
  w_threads w !! i = Some ti ->
  w_threads w !! j = Some tj ->
  crossing (t_car ti) <> 0 ->
  crossing (t_car tj) <> 0 ->
  dir_to_index (dir_original (dir (t_car ti)))
  <> dir_to_index (dir_original (dir (t_car tj))) ->
  Z.land (get_quadrant_mask (dir_original (dir (t_car ti)))
                            (dir_target (dir (t_car ti))))
         (get_quadrant_mask (dir_original (dir (t_car tj)))
                            (dir_target (dir (t_car tj))))
  = 0.
Proof.
  intros Hlen Hcr Hreach Hi Hj Hci Hcj Hdirs.
  destruct (wreach_inv cs w Hlen Hcr Hreach)
    as (pres & hs & Hlocks & Hlp & Hlt & Hthreads & Hhs).
  assert (Hthread : forall k t, w_threads w !! k = Some t ->
            crossing (t_car t) <> 0 ->
            forall q,
              In q (mask_quads (get_quadrant_mask (dir_original (dir (t_car t)))
                                                  (dir_target (dir (t_car t))))) ->
              In {| h_quad := q; h_car := Z.of_nat k;
                    h_dir := dir_to_index (dir_original (dir (t_car t))) |} hs).
  { intros k t Hk Hck q Hq.
    assert (Hklt : (k < length cs)%nat).
    { rewrite <- Hlt. eapply lookup_lt_Some. exact Hk. }
    destruct (lookup_lt_is_Some_2 cs k Hklt) as [[car sch] Hcs].
    destruct (lookup_lt_is_Some_2 pres k) as [pre Hpre]; [lia |].
    destruct (Hthreads k car sch pre t Hcs Hpre Hk) as [Htrace Hc].
    assert (Hcar : crossing car = 0).
    { apply (Hcr car sch). apply list_elem_of_In.
      eapply list_elem_of_lookup_2. exact Hcs. }
    assert (Hdir : dir (t_car t) = dir car)
      by (rewrite Hc; apply run_events_dir).
    rewrite Hdir in *.
    apply Hhs. exists k, car, sch, pre. simpl.
    repeat split; try assumption.
    pose proof (car_thread_path_ok car sch Hcar) as Hok.
    rewrite Htrace, path_ok_app in Hok. apply andb_true_iff in Hok.
    destruct Hok as [Hok _].
    unfold held_by.
    eapply path_ok_crossing_holds; [| exact Hok | | exact Hq].
    - unfold truthy. rewrite Hcar. discriminate.
    - apply truthy_true. rewrite <- Hc. exact Hck. }
  destruct (Z.eq_dec (Z.land (get_quadrant_mask (dir_original (dir (t_car ti)))
                                                (dir_target (dir (t_car ti))))
                             (get_quadrant_mask (dir_original (dir (t_car tj)))
                                                (dir_target (dir (t_car tj)))))
                     0) as [Hz | Hnz]; [exact Hz |].
  exfalso. apply Hdirs.
  destruct (masks_meet _ _ (get_quadrant_mask_range _ _)
              (get_quadrant_mask_range _ _) Hnz) as (q & Hqi & Hqj).
  pose proof (Hthread i ti Hi Hci q Hqi) as Hhi.
  pose proof (Hthread j tj Hj Hcj q Hqj) as Hhj.
  pose proof (mask_quads_indices _ _ Hqi) as Hq.
  apply reachable_inv in Hlocks.
  destruct Hlocks as (Hlen4 & _ & _ & Hquads). simpl in *.
  destruct (lookup_lt_is_Some_2 (w_quads w) (Z.to_nat q)) as [qd Hqd].
  { rewrite Hlen4. unfold NUM_QUADS in *. lia. }
  assert (Hat : quad_at (w_quads w) q = Some qd).
  { unfold quad_at. destruct (Z.ltb_spec q 0); [lia | exact Hqd]. }
  destruct (Hquads q qd Hat) as (_ & _ & _ & Hsame).
  pose proof (Hsame _ (proj2 (holders_of_In q hs _) (conj Hhi eq_refl))) as Ei.
  pose proof (Hsame _ (proj2 (holders_of_In q hs _) (conj Hhj eq_refl))) as Ej.
  simpl in Ei, Ej. congruence.
Qed.

Lemma wstep_of_sound w i w' : wstep_of w i = Some w' -> wstep w w'.
Proof.
  unfold wstep_of. intros H.
  destruct (w_threads w !! i) as [[c [| e rest]] |] eqn:Hi; try discriminate.
  destruct (event_effect (table w) c (w_quads w) e) as [quads' |] eqn:He;
    [| discriminate].
  injection H as <-. apply (wstep_event w i c e rest quads'); assumption.
Qed.

Lemma run_order_reach w0 order :
  forall w w', wreach w0 w -> run_order w order = Some w' -> wreach w0 w'.
Proof.
  induction order as [| i order IH]; simpl; intros w w' Hreach H.
  - injection H as <-. exact Hreach.
  - destruct (wstep_of w i) as [w1 |] eqn:Hs; [| discriminate].
    apply (IH w1 w'); [| exact H].
    apply (wreach_step w0 w w1); [exact Hreach |].
    exact (wstep_of_sound w i w1 Hs).
Defined.

Lemma crossing_cars_do_not_meet_witness :
  exists w ti tj,
    run_order (init_world sample_pair) (repeat 0%nat 19 ++ repeat 1%nat 19)
      = Some w /\
    w_threads w !! 0%nat = Some ti /\
    w_threads w !! 1%nat = Some tj /\
    crossing (t_car ti) <> 0 /\
    crossing (t_car tj) <> 0 /\
    Z.land (get_quadrant_mask (dir_original (dir (t_car ti)))
                              (dir_target (dir (t_car ti))))
           (get_quadrant_mask (dir_original (dir (t_car tj)))
                              (dir_target (dir (t_car tj))))
    = 0.
Proof.
  destruct (run_order (init_world sample_pair)
              (repeat 0%nat 19 ++ repeat 1%nat 19)) as [w |] eqn:Hrun;
    [| vm_compute in Hrun; discriminate Hrun].
  assert (Hreach : wreach (init_world sample_pair) w).
  { apply (run_order_reach _ _ _ _ (wreach_start _) Hrun). }
  vm_compute in Hrun. injection Hrun as <-.
  eexists. eexists. eexists.
  split; [reflexivity |]. split; [reflexivity |]. split; [reflexivity |].
  split; [simpl; discriminate |]. split; [simpl; discriminate |].
  eapply (crossing_cars_do_not_meet sample_pair _ 0%nat 1%nat).
  - unfold NUM_CARS. simpl. lia.
  - intros car sch [H | [H | []]]; injection H as <- <-; reflexivity.
  - exact Hreach.
  - reflexivity.
  - reflexivity.
  - simpl. discriminate.
  - simpl. discriminate.
  - vm_compute. discriminate.
Defined.

(** While the car from the north turns left, the car from the south gets
    as far as its first [acquire_quad] and no further; two cars from the
    north cross together. *)
Example south_stops_at_north_east_quadrant :
  (exists w, run_order (init_world sample_left_pair)
               (repeat 0%nat 20 ++ repeat 1%nat 14) = Some w) /\
  run_order (init_world sample_left_pair)
    (repeat 0%nat 20 ++ repeat 1%nat 15) = None.
Proof.
  split; [eexists |]; vm_compute; reflexivity.
Qed.

(** With the south-west quadrant held by the north, the car from the south
    that turns left takes the north-east quadrant and then waits. *)
Example south_left_waits_for_south_west :
  run_quads (quads sample_isect_2)
            (car_thread (new_car 5 (55 # 10) ch_down ch_right) sample_schedule)
  = Waits.
Proof. reflexivity. Qed.
